(** * Boolean retrieval: index builder, query parser and skip-list merges

    A shallow embedding of [index.py] and [search.py].

    Conventions of the embedding:
    - document IDs are Python integers, modelled as [Z];
    - positions, lengths, byte offsets and skip strides are natural numbers
      (they start at 0 or come from [len] and [int(math.sqrt(..))] and are
      only ever incremented), modelled as [nat];
    - Python exceptions are values of [exn]; a computation that can raise
      returns [res A];
    - [while] loops whose trip count is not structural take a [fuel]
      argument and return [OutOfFuel] when it is exhausted; the theorems
      below show that the fuel the callers pass is always enough. *)

From Stdlib Require Import ZArith String Ascii Lia.
From stdpp Require Import base tactics option list sorting strings gmap.

Local Open Scope nat_scope.

(** ** Exceptions *)

Inductive exn : Type :=
| IndexError          (* list index out of range, pop from empty list *)
| ValueError          (* int() on a malformed literal *)
| KeyError            (* dict[key] on an absent key *)
| UnboundLocalError.  (* read of a local variable before assignment *)

Inductive res (A : Type) : Type :=
| Ret (a : A)
| Raise (e : exn)
| OutOfFuel.
Arguments Ret {A} a.
Arguments Raise {A} e.
Arguments OutOfFuel {A}.

#[global] Instance res_ret : MRet res := fun A a => Ret a.
#[global] Instance res_bind : MBind res := fun A B k m =>
  match m with
  | Ret a => k a
  | Raise e => Raise e
  | OutOfFuel => OutOfFuel
  end.
#[global] Instance res_fmap : FMap res := fun A B g m =>
  match m with
  | Ret a => Ret (g a)
  | Raise e => Raise e
  | OutOfFuel => OutOfFuel
  end.

(** [l[i]] for a non-negative index [i]. *)
Definition getitem {A} (l : list A) (i : nat) : res A :=
  match l !! i with
  | Some x => Ret x
  | None => Raise IndexError
  end.

(** [[f(x) for x in l]] where [f] may raise: the first exception wins. *)
Fixpoint map_res {A B} (f : A → res B) (l : list A) : res (list B) :=
  match l with
  | [] => Ret []
  | x :: r => y ← f x; ys ← map_res f r; Ret (y :: ys)
  end.

(** ** Query results and skip pointers ([search.py]) *)

(** [QueryResult = namedtuple('QueryResult', ['doc_Ids', 'skip_len'])] *)
Record QueryResult : Type := mkQueryResult {
  doc_Ids : list Z;
  skip_len : nat
}.

(** [has_skip(idx, skip_len, total_len)] *)
Definition has_skip (idx skip_len total_len : nat) : bool :=
  if skip_len =? 0 then false
  else if (idx mod skip_len =? 0) && (idx + skip_len <? total_len) then true
  else false.

(** [int(math.sqrt(n))] for a list length [n].  [math.sqrt] is the correctly
    rounded double-precision square root, whose truncation is the integer
    square root for every [n] below [2^52]; list lengths are far below. *)
Definition int_sqrt (n : nat) : nat := Nat.sqrt n.

Section SkipMerge.

(** The inner loop
    [while has_skip(j, skip, len(l)) and l[j + skip] <= bound: j += skip].
    [and] short-circuits: the look-ahead is read only when [has_skip]
    holds. *)
Fixpoint skip_loop (fuel : nat) (l : list Z) (skip : nat) (bound : Z)
    (j : nat) : res nat :=
  match fuel with
  | 0 => OutOfFuel
  | S fuel' =>
      if has_skip j skip (length l) then
        x ← getitem l (j + skip);
        if (x <=? bound)%Z then skip_loop fuel' l skip bound (j + skip)
        else Ret j
      else Ret j
  end.

(** The pointer advance shared by the three skip sites:
    [if has_skip(j, skip, len(l)) and l[j + skip] <= bound:
         j += skip; while ...: j += skip
     else: j += 1]. *)
Definition advance (fuel : nat) (l : list Z) (skip : nat) (bound : Z)
    (j : nat) : res nat :=
  c ← (if has_skip j skip (length l)
       then x ← getitem l (j + skip); Ret (x <=? bound)%Z
       else Ret false);
  if c : bool then skip_loop fuel l skip bound (j + skip) else Ret (j + 1).

Variables (list_1 : list Z) (skip_1 : nat) (list_2 : list Z) (skip_2 : nat).

(** The [while i < len(list_1) and j < len(list_2)] loop of
    [perform_and_query]. *)
Fixpoint and_loop (fuel i j : nat) (results : list Z) : res (list Z) :=
  match fuel with
  | 0 => OutOfFuel
  | S fuel' =>
      if (i <? length list_1) && (j <? length list_2) then
        a ← getitem list_1 i;
        b ← getitem list_2 j;
        if (a =? b)%Z then and_loop fuel' (i + 1) (j + 1) (results ++ [a])
        else if (a <? b)%Z then
          i' ← advance fuel' list_1 skip_1 b i;
          and_loop fuel' i' j results
        else if (b <? a)%Z then
          j' ← advance fuel' list_2 skip_2 a j;
          and_loop fuel' i j' results
        else and_loop fuel' i j results
      else Ret results
  end.

(** The loop of [perform_and_not_query]; only [list_2] is skipped over. *)
Fixpoint and_not_loop (fuel i j : nat) (results : list Z)
    : res (nat * list Z) :=
  match fuel with
  | 0 => OutOfFuel
  | S fuel' =>
      if (i <? length list_1) && (j <? length list_2) then
        a ← getitem list_1 i;
        b ← getitem list_2 j;
        if (a <? b)%Z then and_not_loop fuel' (i + 1) j (results ++ [a])
        else if (a =? b)%Z then and_not_loop fuel' (i + 1) (j + 1) results
        else if (a >? b)%Z then
          j' ← advance fuel' list_2 skip_2 a j;
          and_not_loop fuel' i j' results
        else and_not_loop fuel' i j results
      else Ret (i, results)
  end.

(** The loop of [perform_or_query]; no skip pointers are used. *)
Fixpoint or_loop (fuel i j : nat) (results : list Z)
    : res (nat * nat * list Z) :=
  match fuel with
  | 0 => OutOfFuel
  | S fuel' =>
      if (i <? length list_1) && (j <? length list_2) then
        a ← getitem list_1 i;
        b ← getitem list_2 j;
        if (a <? b)%Z then or_loop fuel' (i + 1) j (results ++ [a])
        else if (b <? a)%Z then or_loop fuel' i (j + 1) (results ++ [b])
        else if (a =? b)%Z then
          or_loop fuel' (i + 1) (j + 1) (results ++ [a])
        else or_loop fuel' i j results
      else Ret (i, j, results)
  end.

(** Fuel handed to the merge loops: one more than the number of elements
    still to be passed on both sides. *)
Definition merge_fuel : nat := S (length list_1 + length list_2).

(** Body of [perform_and_query] after the operands are resolved. *)
Definition and_merge : res QueryResult :=
  results ← and_loop merge_fuel 0 0 [];
  Ret (mkQueryResult results (int_sqrt (length results))).

(** Body of [perform_and_not_query]:
    [if i < len(list_1): results.extend(list_1[i:])]. *)
Definition and_not_merge : res QueryResult :=
  '(i, results) ← and_not_loop merge_fuel 0 0 [];
  let results := if i <? length list_1 then results ++ drop i list_1
                 else results in
  Ret (mkQueryResult results (int_sqrt (length results))).

(** Body of [perform_or_query], with its empty-operand short cut. *)
Definition or_merge : res QueryResult :=
  if (length list_1 =? 0) || (length list_2 =? 0) then
    if 0 <? length list_1 then Ret (mkQueryResult list_1 0)
    else Ret (mkQueryResult list_2 0)
  else
    '(i, j, results) ← or_loop merge_fuel 0 0 [];
    let results := if i <? length list_1 then results ++ drop i list_1
                   else results in
    let results := if j <? length list_2 then results ++ drop j list_2
                   else results in
    Ret (mkQueryResult results (int_sqrt (length results))).

End SkipMerge.

(** ** Python built-ins on strings used by the index and the searcher

    Strings are sequences of 8-bit characters ([String.string]), read as
    the code points below 256; a name with a code point beyond them is
    outside the model.  Everything the two programs write is ASCII. *)

Module Py.

Definition is_digit (c : ascii) : bool :=
  (48 <=? nat_of_ascii c) && (nat_of_ascii c <=? 57).

Definition digit_val (c : ascii) : Z := Z.of_nat (nat_of_ascii c - 48).

Definition digit_char (d : Z) : ascii := ascii_of_nat (48 + Z.to_nat d).

(** The characters [int] skips before and after an integer literal.
    In an ASCII string these are the white space of C: tab, line feed,
    vertical tab, form feed, carriage return and the blank.  The
    separators 0x1c-0x1f, for which [str.isspace] holds too, are not
    skipped.  In a string with a character beyond ASCII, [int] first turns
    the white space beyond ASCII into blanks: below 256 that is U+0085 and
    U+00A0.  No code point from 128 to 255 is a decimal digit. *)
Definition is_space (c : ascii) : bool :=
  let n := nat_of_ascii c in
  ((9 <=? n) && (n <=? 13)) || (n =? 32) || (n =? 133) || (n =? 160).

(** Decimal digits of a non-negative integer, most significant first.
    [fuel] bounds the number of digits. *)
Fixpoint digits_of (fuel : nat) (n : Z) : string :=
  match fuel with
  | 0 => ""
  | S fuel' =>
      (if (n <? 10)%Z then "" else digits_of fuel' (n / 10)%Z)
      +:+ String (digit_char (n mod 10)%Z) ""
  end.

(** [str(n)] for an integer [n]. *)
Definition str (n : Z) : string :=
  if (n <? 0)%Z then String "-" (digits_of (S (Z.to_nat (Z.log2 (- n)))) (- n)%Z)
  else digits_of (S (Z.to_nat (Z.log2 n))) n.

(** [s] without the white space at its start ([lstrip]) and at its end
    ([rstrip]). *)
Fixpoint lstrip (s : string) : string :=
  match s with
  | String c r => if is_space c then lstrip r else s
  | EmptyString => ""
  end.

Fixpoint rstrip (s : string) : string :=
  match s with
  | String c r =>
      match rstrip r with
      | EmptyString => if is_space c then "" else String c ""
      | r' => String c r'
      end
  | EmptyString => ""
  end.

(** The digit part of an integer literal: decimal digits, with single
    underscores allowed between two digits.  [acc] is the value read so
    far, [after_digit] tells whether the previous character was a digit. *)
Fixpoint digits_acc (s : string) (acc : Z) (after_digit : bool) : option Z :=
  match s with
  | EmptyString => if after_digit then Some acc else None
  | String c r =>
      if is_digit c then digits_acc r (10 * acc + digit_val c)%Z true
      else if Ascii.eqb c "_" then
        (if after_digit then digits_acc r acc false else None)
      else None
  end.

(** An integer literal: an optional sign, then the digits. *)
Definition int_literal (t : string) : option Z :=
  match t with
  | String "-" r => Z.opp <$> digits_acc r 0 false
  | String "+" r => digits_acc r 0 false
  | _ => digits_acc t 0 false
  end.

(** [int(s)]: the white space around the literal is skipped; anything
    but an integer literal (a blank inside it, a white space after the
    sign, a character that is no digit) is a [ValueError].  The limit
    Python puts on the number of digits (4300 by default) is beyond the
    length of a file name. *)
Definition int (s : string) : res Z :=
  match int_literal (lstrip (rstrip s)) with
  | Some n => Ret n
  | None => Raise ValueError
  end.

(** [sep.join(l)] *)
Fixpoint join (sep : string) (l : list string) : string :=
  match l with
  | [] => ""
  | [x] => x
  | x :: r => x +:+ sep +:+ join sep r
  end.

(** [s.split(sep)] for a one-character separator: never returns the empty
    list, and [''.split(',')] is [['']]. *)
Fixpoint split (sep : ascii) (s : string) : list string :=
  match s with
  | EmptyString => [""]
  | String c r =>
      if Ascii.eqb c sep then "" :: split sep r
      else match split sep r with
           | h :: t => String c h :: t
           | [] => [String c ""]
           end
  end.

(** [s[:-1]]: all but the last character; the empty string stays empty. *)
Fixpoint drop_last (s : string) : string :=
  match s with
  | EmptyString => ""
  | String c EmptyString => ""
  | String c r => String c (drop_last r)
  end.

(** [list.pop()] on a list kept with its last element first. *)
Definition pop {A} (stack : list A) : res (A * list A) :=
  match stack with
  | x :: rest => Ret (x, rest)
  | [] => Raise IndexError
  end.

End Py.

(** The line terminator. *)
Definition newline : string := String (ascii_of_nat 10) "".

(** ** The postings store as the searcher reads it ([search.py]) *)

(** A dictionary entry [(num_docs, offset_bytes, size_bytes, skip_len)]. *)
Definition entry : Type := nat * nat * nat * nat.

(** Special token that has a postings list containing all doc IDs. *)
Definition ALL_DOC_IDS : string := "## all doc IDs ##".

(** An operand of a merge: a query term still to be looked up, or a
    [QueryResult] (the [type(operand) is QueryResult] test). *)
Inductive operand : Type :=
| Term (word : string)
| Res (q : QueryResult).

Section Search.

(** The pickled dictionary and the contents of the postings file; both are
    only read by the searcher. *)
Variables (dictionary : gmap string entry) (postings_fo : string).

(** [read_postings_list_from_disk(word, dictionary, postings_fo)]:
    [seek(offset)], [read(size)], drop the trailing space, split on commas
    and convert every field with [int]. *)
Definition read_postings_list_from_disk (word : string) : res (list Z) :=
  match dictionary !! word with
  | None => Raise KeyError
  | Some (num_docs, offset, size, skip_len) =>
      let postings := substring offset size postings_fo in
      map_res Py.int (Py.split "," (Py.drop_last postings))
  end.

(** [get_query_result(operand, dictionary, postings_fo)] *)
Definition get_query_result (o : operand) : res QueryResult :=
  match o with
  | Res q => Ret q
  | Term word =>
      match dictionary !! word with
      | None => Ret (mkQueryResult [] 0)
      | Some (_, _, _, skip) =>
          postings_list ← read_postings_list_from_disk word;
          Ret (mkQueryResult postings_list skip)
      end
  end.

Definition perform_and_not_query (operand_1 operand_2 : operand)
    : res QueryResult :=
  q1 ← get_query_result operand_1;
  q2 ← get_query_result operand_2;
  and_not_merge (doc_Ids q1) (doc_Ids q2) (skip_len q2).

Definition perform_not_query (o : operand) : res QueryResult :=
  all_docs_res ← get_query_result (Term ALL_DOC_IDS);
  operand_res ← get_query_result o;
  perform_and_not_query (Res all_docs_res) (Res operand_res).

Definition perform_and_query (operand_1 operand_2 : operand)
    : res QueryResult :=
  q1 ← get_query_result operand_1;
  q2 ← get_query_result operand_2;
  and_merge (doc_Ids q1) (skip_len q1) (doc_Ids q2) (skip_len q2).

Definition perform_or_query (operand_1 operand_2 : operand)
    : res QueryResult :=
  q1 ← get_query_result operand_1;
  q2 ← get_query_result operand_2;
  or_merge (doc_Ids q1) (doc_Ids q2).

End Search.

(** ** Query parser and evaluator ([search.py]) *)

Section Query.

(** The text normalisation is external (NLTK): [nltk.word_tokenize] and
    [stemmer.stem(token).lower()]. *)
Variables (word_tokenize : string → list string) (normalize : string → string).

(** [while len(operator_stack) > 0 and p(operator_stack[-1]):
        output_queue.append(operator_stack.pop())].
    The operator stack is kept with its top first. *)
Fixpoint pop_while (p : string → bool) (operator_stack output_queue : list string)
    : list string * list string :=
  match operator_stack with
  | top :: rest =>
      if p top then pop_while p rest (output_queue ++ [top])
      else (operator_stack, output_queue)
  | [] => ([], output_queue)
  end.

(** One iteration of [for token in tokens] in [shunting_yard]. *)
Definition shunting_yard_step (token : string)
    (output_queue operator_stack : list string)
    : res (list string * list string) :=
  if String.eqb token "(" then Ret (output_queue, token :: operator_stack)
  else if String.eqb token ")" then
    let '(operator_stack, output_queue) :=
      pop_while (λ top, negb (String.eqb top "(")) operator_stack output_queue in
    '(_, operator_stack) ← Py.pop operator_stack;  (* Remove '(' *)
    Ret (output_queue, operator_stack)
  else if String.eqb token "NOT" then Ret (output_queue, token :: operator_stack)
  else if String.eqb token "AND" then
    let '(operator_stack, output_queue) :=
      pop_while (λ top, String.eqb top "NOT") operator_stack output_queue in
    Ret (output_queue, token :: operator_stack)
  else if String.eqb token "OR" then
    let '(operator_stack, output_queue) :=
      pop_while (λ top, String.eqb top "NOT" || String.eqb top "AND")
        operator_stack output_queue in
    Ret (output_queue, token :: operator_stack)
  else Ret (output_queue ++ [normalize token], operator_stack).

Fixpoint shunting_yard_loop (tokens output_queue operator_stack : list string)
    : res (list string) :=
  match tokens with
  | token :: tokens' =>
      '(output_queue, operator_stack) ←
        shunting_yard_step token output_queue operator_stack;
      shunting_yard_loop tokens' output_queue operator_stack
  | [] =>
      (* while len(operator_stack) > 0: output_queue.append(operator_stack.pop()) *)
      Ret (snd (pop_while (λ _, true) operator_stack output_queue))
  end.

(** [shunting_yard(query)] *)
Definition shunting_yard (query : string) : res (list string) :=
  shunting_yard_loop (word_tokenize query) [] [].

Variables (dictionary : gmap string entry) (postings_fo : string).

(** [stack.append(query_res)]: [query_res] is a local variable of
    [perform_search_query] that is unbound until a branch assigns it.
    The operand stack is kept with its top first. *)
Definition append_query_res (stack : list QueryResult)
    (query_res : option QueryResult) : res (list QueryResult) :=
  match query_res with
  | Some q => Ret (q :: stack)
  | None => Raise UnboundLocalError
  end.

(** One iteration of the [while i < len(query)] loop of
    [perform_search_query], on [token = query[i]] with the look-ahead
    [query[i + 1]] when it exists.  Returns whether the look-ahead was
    consumed too ([i += 1] inside the branch), the stack and the value of
    [query_res] after [stack.append(query_res)]. *)
Definition eval_step (token : string) (lookahead : option string)
    (stack : list QueryResult) (query_res : option QueryResult)
    : res (bool * list QueryResult * option QueryResult) :=
  if String.eqb token "NOT" then
    if bool_decide (lookahead = Some "AND") then        (* AND NOT *)
      '(operand_2, stack) ← Py.pop stack;
      '(operand_1, stack) ← Py.pop stack;
      q ← perform_and_not_query dictionary postings_fo (Res operand_1) (Res operand_2);
      stack ← append_query_res stack (Some q);
      Ret (true, stack, Some q)
    else if bool_decide (lookahead = Some "NOT") then   (* NOT NOT *)
      stack ← append_query_res stack query_res;
      Ret (true, stack, query_res)
    else
      '(o, stack) ← Py.pop stack;
      q ← perform_not_query dictionary postings_fo (Res o);
      stack ← append_query_res stack (Some q);
      Ret (false, stack, Some q)
  else if String.eqb token "AND" then
    '(operand_2, stack) ← Py.pop stack;
    '(operand_1, stack) ← Py.pop stack;
    q ← perform_and_query dictionary postings_fo (Res operand_1) (Res operand_2);
    stack ← append_query_res stack (Some q);
    Ret (false, stack, Some q)
  else if String.eqb token "OR" then
    '(operand_2, stack) ← Py.pop stack;
    '(operand_1, stack) ← Py.pop stack;
    q ← perform_or_query dictionary postings_fo (Res operand_1) (Res operand_2);
    stack ← append_query_res stack (Some q);
    Ret (false, stack, Some q)
  else
    q ← get_query_result dictionary postings_fo (Term token);
    stack ← append_query_res stack (Some q);
    Ret (false, stack, Some q).

(** The scan of the postfix sequence from position [i] on: [query] is
    [query[i:]]. *)
Fixpoint eval_loop (query : list string) (stack : list QueryResult)
    (query_res : option QueryResult) : res (list QueryResult) :=
  match query with
  | [] => Ret stack
  | token :: rest =>
      '(consumed, stack, query_res) ← eval_step token (head rest) stack query_res;
      match consumed, rest with
      | true, _ :: rest' => eval_loop rest' stack query_res
      | _, _ => eval_loop rest stack query_res
      end
  end.

(** [perform_search_query(query, dictionary, postings_fo)].  Every value
    pushed on the stack is a [QueryResult], so the final
    [type(search_results) is not QueryResult] test never fires. *)
Definition perform_search_query (query : list string) : res (list Z) :=
  stack ← eval_loop query [] None;
  '(search_results, _) ← Py.pop stack;
  Ret (doc_Ids search_results).

(** The query loop of [run_search] over the lines of the queries file.
    [linecache.getline] returns the lines in order, each with its
    newline, and [''] after the last one, which ends the loop.  The first
    component is what has been passed to [results_fo.write] so far; an
    exception is not caught and ends the run. *)
Fixpoint run_search_loop (lines : list string) (written : list string)
    : list string * res () :=
  match lines with
  | [] => (written, Ret ())
  | line :: lines' =>
      match query ← shunting_yard (line +:+ newline);
            perform_search_query query with
      | Ret search_results =>
          let search_results_str :=
            Py.join " " (Py.str <$> search_results) +:+ newline in
          run_search_loop lines' (written ++ [search_results_str])
      | Raise e => (written, Raise e)
      | OutOfFuel => (written, OutOfFuel)
      end
  end.

Definition run_search (queries_file : list string) : list string * res () :=
  run_search_loop queries_file [].

End Query.

(** ** The index builder ([index.py]) *)

(** A Python [dict] whose iteration order matters: keys in insertion order,
    each key at most once. *)
Module Dict.

Definition t (V : Type) : Type := list (string * V).

(** [d.get(k)] / [d[k]] *)
Fixpoint get {V} (d : t V) (k : string) : option V :=
  match d with
  | [] => None
  | (k', v) :: d' => if String.eqb k' k then Some v else get d' k
  end.

(** [d[k] = v]: an existing key keeps its place, a new key goes last. *)
Fixpoint set {V} (d : t V) (k : string) (v : V) : t V :=
  match d with
  | [] => [(k, v)]
  | (k', v') :: d' =>
      if String.eqb k' k then (k', v) :: d' else (k', v') :: set d' k v
  end.

(** [k in d] *)
Definition mem {V} (d : t V) (k : string) : bool :=
  match get d k with Some _ => true | None => false end.

End Dict.

(** An entry of the input directory: whether [os.path.isfile] holds for it,
    and, for a regular file, its lines (without their newlines).  The
    directory maps the names of its entries to them. *)
Record dirent : Type := mkDirent {
  d_isfile : bool;
  d_lines : list string
}.

(** [os.listdir(in_dir)], in some order. *)
Definition listdir (in_dir : gmap string dirent) : list string :=
  (map_to_list in_dir).*1.

(** [os.path.isfile(os.path.join(in_dir, f))] *)
Definition isfile (in_dir : gmap string dirent) (f : string) : bool :=
  match in_dir !! f with
  | Some e => d_isfile e
  | None => false
  end.

(** [get_sorted_file_names(in_dir)]: [int(f)] for every regular file, then
    [files.sort()]. *)
Definition get_sorted_file_names (in_dir : gmap string dirent) : res (list Z) :=
  files ← map_res Py.int (filter (λ f, isfile in_dir f = true) (listdir in_dir));
  Ret (merge_sort Z.le files).

(** The lines [linecache.getline(os.path.join(in_dir, name), 1..)] yields:
    those of the file of that name, and none when there is no such regular
    file ([linecache] swallows the error and returns ['']). *)
Definition file_lines (in_dir : gmap string dirent) (name : string) : list string :=
  match in_dir !! name with
  | Some e => if d_isfile e then d_lines e else []
  | None => []
  end.

Section Index.

Variables (sent_tokenize word_tokenize : string → list string)
          (normalize : string → string).

(** The body of the innermost loop of [create_postings_lists] for one
    [stemmed_word_token]. *)
Definition add_posting (docID : Z) (postings_lists : Dict.t (list Z))
    (stemmed_word_token : string) : Dict.t (list Z) :=
  let postings_lists :=
    if negb (Dict.mem postings_lists stemmed_word_token)
    then Dict.set postings_lists stemmed_word_token []
    else postings_lists in
  (* Add doc ID to postings list *)
  let postings := default [] (Dict.get postings_lists stemmed_word_token) in
  if (length postings =? 0) || negb (bool_decide (last postings = Some docID))
  then Dict.set postings_lists stemmed_word_token (postings ++ [docID])
  else postings_lists.

(** The normalised tokens of one line, in the order the three nested
    loops visit them. *)
Definition line_tokens (line : string) : list string :=
  sent_token ← sent_tokenize line;
  word_token ← word_tokenize sent_token;
  [normalize word_token].

(** The [while line != ''] loop over the lines of one document. *)
Definition index_document (in_dir : gmap string dirent)
    (postings_lists : Dict.t (list Z))
    (docID : Z) : Dict.t (list Z) :=
  let postings_lists :=
    Dict.set postings_lists ALL_DOC_IDS
      (default [] (Dict.get postings_lists ALL_DOC_IDS) ++ [docID]) in
  foldl (λ pl line, foldl (add_posting docID) pl (line_tokens (line +:+ newline)))
    postings_lists (file_lines in_dir (Py.str docID)).

(** [create_postings_lists(in_dir)] *)
Definition create_postings_lists (in_dir : gmap string dirent)
    : res (Dict.t (list Z)) :=
  files ← get_sorted_file_names in_dir;
  Ret (foldl (index_document in_dir) [(ALL_DOC_IDS, [])] files).

End Index.

(** [write_postings_list(postings_list, f)]: returns the file after the
    write and the number of characters written. *)
Definition write_postings_list (postings_list : list Z) (f : string)
    : string * nat :=
  let postings_list_str := Py.join "," (Py.str <$> postings_list) +:+ " " in
  (f +:+ postings_list_str, String.length postings_list_str).

(** The [for word in postings_lists] loop of [write_index_to_disk]: [f] is
    the postings file written so far and [offset] the number of bytes that
    have been written to it. *)
Fixpoint write_index_loop (postings_lists : Dict.t (list Z))
    (dictionary : gmap string entry) (f : string) (offset : nat)
    : gmap string entry * string :=
  match postings_lists with
  | [] => (dictionary, f)
  | (word, postings) :: rest =>
      let num_docs := length postings in
      let skip_len := int_sqrt num_docs in
      let '(f, size_bytes) := write_postings_list postings f in
      write_index_loop rest
        (<[word := (num_docs, offset, size_bytes, skip_len)]> dictionary)
        f (offset + size_bytes)
  end.

(** [write_index_to_disk(postings_lists, out_dict, out_postings)]: returns
    the dictionary that is pickled and the contents of the postings file. *)
Definition write_index_to_disk (postings_lists : Dict.t (list Z))
    : gmap string entry * string :=
  write_index_loop postings_lists ∅ "" 0.

(** * Specifications *)

(** A postings list is strictly ascending (hence free of duplicates). *)
Definition strictly_ascending (l : list Z) : Prop := StronglySorted Z.lt l.

(** ** Naive set-based references for the three merges

    [sorted(set(a) & set(b))], [sorted(set(a) | set(b))] and
    [sorted(set(a) - set(b))]. *)
Definition ref_and (a b : list Z) : list Z :=
  merge_sort Z.le (elements (list_to_set a ∩ list_to_set b : gset Z)).

Definition ref_or (a b : list Z) : list Z :=
  merge_sort Z.le (elements (list_to_set a ∪ list_to_set b : gset Z)).

Definition ref_and_not (a b : list Z) : list Z :=
  merge_sort Z.le (elements (list_to_set a ∖ list_to_set b : gset Z)).

(** ** Linear (non-skipping) two-pointer merges, as the design describes
    them: every step advances a pointer by exactly one position. *)
Fixpoint linear_and (l1 : list Z) : list Z → list Z :=
  fix go (l2 : list Z) : list Z :=
    match l1, l2 with
    | a :: l1', b :: l2' =>
        if (a =? b)%Z then a :: linear_and l1' l2'
        else if (a <? b)%Z then linear_and l1' l2
        else go l2'
    | _, _ => []
    end.

Fixpoint linear_and_not (l1 : list Z) : list Z → list Z :=
  fix go (l2 : list Z) : list Z :=
    match l1, l2 with
    | a :: l1', b :: l2' =>
        if (a <? b)%Z then a :: linear_and_not l1' l2
        else if (a =? b)%Z then linear_and_not l1' l2'
        else go l2'
    | _, [] => l1
    | [], _ => []
    end.

Fixpoint linear_or (l1 : list Z) : list Z → list Z :=
  fix go (l2 : list Z) : list Z :=
    match l1, l2 with
    | a :: l1', b :: l2' =>
        if (a <? b)%Z then a :: linear_or l1' l2
        else if (b <? a)%Z then b :: go l2'
        else a :: linear_or l1' l2'
    | _, [] => l1
    | [], _ => l2
    end.

(** The two filters the merges compute on ascending lists. *)
Definition inter (a b : list Z) : list Z := filter (λ x, x ∈ b) a.
Definition diff (a b : list Z) : list Z := filter (λ x, x ∉ b) a.

(** [s] is the integer square root of [n]. *)
Definition is_floor_sqrt (s n : nat) : Prop := s * s ≤ n < (s + 1) * (s + 1).

(** ** The parsing algorithm as the design words it

    Precedence, highest to lowest: [NOT], [AND], [OR].  On an operator, pop
    the operators the table says must leave the stack, then push the new
    one; [NOT] is pushed at once and never pops anything.  [pop_equal]
    selects between popping operators of equal-or-higher precedence
    ([true]) and of strictly higher precedence ([false]). *)
Section ParserSpec.

Variable normalize : string → string.

Definition precedence (op : string) : option nat :=
  if String.eqb op "NOT" then Some 3
  else if String.eqb op "AND" then Some 2
  else if String.eqb op "OR" then Some 1
  else None.

Definition must_pop (pop_equal : bool) (token top : string) : bool :=
  match precedence token, precedence top with
  | Some p, Some q => if pop_equal then p <=? q else p <? q
  | _, _ => false
  end.

Definition precedence_step (pop_equal : bool) (token : string)
    (output_queue operator_stack : list string)
    : res (list string * list string) :=
  if String.eqb token "(" then Ret (output_queue, token :: operator_stack)
  else if String.eqb token ")" then
    let '(operator_stack, output_queue) :=
      pop_while (λ top, negb (String.eqb top "(")) operator_stack output_queue in
    '(_, operator_stack) ← Py.pop operator_stack;
    Ret (output_queue, operator_stack)
  else if String.eqb token "NOT" then Ret (output_queue, token :: operator_stack)
  else
    match precedence token with
    | Some _ =>
        let '(operator_stack, output_queue) :=
          pop_while (must_pop pop_equal token) operator_stack output_queue in
        Ret (output_queue, token :: operator_stack)
    | None => Ret (output_queue ++ [normalize token], operator_stack)
    end.

Fixpoint precedence_loop (pop_equal : bool)
    (tokens output_queue operator_stack : list string) : res (list string) :=
  match tokens with
  | token :: tokens' =>
      '(output_queue, operator_stack) ←
        precedence_step pop_equal token output_queue operator_stack;
      precedence_loop pop_equal tokens' output_queue operator_stack
  | [] => Ret (output_queue ++ operator_stack)
  end.

End ParserSpec.

(** ** A small collection used in the examples

    Documents 1, 2 and 10; term [a] occurs in 1 and 2, [b] in 1 and 10,
    [c] in 1 and 2.  The tokenizer splits on blanks, which is what
    [nltk.word_tokenize] does on the blank-separated lower-case words and
    operators used here; the normaliser leaves such words unchanged. *)
Definition blank_tokenize (s : string) : list string :=
  filter (λ x, x ≠ ""%string) (Py.split " " (Py.rstrip s)).

Definition one_sentence (s : string) : list string := [s].

Definition example_dir : gmap string dirent :=
  list_to_map [ ("1", mkDirent true ["a b"; "c"]);
                ("2", mkDirent true ["a c"]);
                ("10", mkDirent true ["b"]) ].

Definition example_postings_lists : Dict.t (list Z) :=
  [ (ALL_DOC_IDS, [1; 2; 10]%Z); ("a", [1; 2]%Z); ("b", [1; 10]%Z);
    ("c", [1; 2]%Z) ].

Definition example_dictionary : gmap string entry :=
  (write_index_to_disk example_postings_lists).1.

Definition example_postings_file : string :=
  (write_index_to_disk example_postings_lists).2.


(** The outcome of one line of the queries file: parse, then evaluate. *)
Definition line_outcome (word_tokenize : string → list string)
    (normalize : string → string) (dictionary : gmap string entry)
    (postings_fo : string) (line : string) : res (list Z) :=
  query ← shunting_yard word_tokenize normalize (line +:+ newline);
  perform_search_query dictionary postings_fo query.

(** Every character of [s] satisfies [p]. *)
Fixpoint all_chars (p : ascii → bool) (s : string) : bool :=
  match s with
  | EmptyString => true
  | String c r => p c && all_chars p r
  end.

(** The characters [str] produces for an integer: digits and the sign. *)
Definition is_int_char (c : ascii) : bool := Py.is_digit c || Ascii.eqb c "-".

(** ** What the index is supposed to hold *)

Section IndexSpec.

Variables (sent_tokenize word_tokenize : string → list string)
          (normalize : string → string).

(** The documents of a directory, by name: its regular files. *)
Definition documents (in_dir : gmap string dirent) : list string :=
  filter (λ f, isfile in_dir f = true) (listdir in_dir).

(** The normalised tokens of a document given by its lines. *)
Definition doc_tokens (lines : list string) : list string :=
  line ← lines; line_tokens sent_tokenize word_tokenize normalize (line +:+ newline).

(** The tokens of the document with ID [n], as the builder reads them:
    from the file named [str(n)]. *)
Definition tokens_of (in_dir : gmap string dirent) (n : Z) : list string :=
  doc_tokens (file_lines in_dir (Py.str n)).

(** The documents that contain [term]. *)
Definition docs_containing (term : string) (in_dir : gmap string dirent)
    : list string :=
  filter (λ f, term ∈ doc_tokens (file_lines in_dir f)) (documents in_dir).

End IndexSpec.

(** A directory whose second file name parses as an integer without being
    the canonical spelling of it. *)
Definition padded_name_dir : gmap string dirent :=
  list_to_map [ ("1", mkDirent true ["a"]); ("02", mkDirent true ["a"]) ].

(** ** Loop invariants of [create_postings_lists]

    [tokens_of n] stands for the tokens of the document with ID [n]. *)
Section IndexInvariant.

Variable tokens_of : Z → list string.

(** Between two documents, [done] being the IDs indexed so far: the
    sentinel holds [done] and every other term the IDs among [done] of
    the documents that contain it, in the same order. *)
Definition index_state (postings_lists : Dict.t (list Z)) (done : list Z) : Prop :=
  Dict.get postings_lists ALL_DOC_IDS = Some done
  ∧ ∀ term, term ≠ ALL_DOC_IDS →
      default [] (Dict.get postings_lists term)
      = filter (λ n, term ∈ tokens_of n) done.

(** Inside document [docID], [seen] being its tokens handled so far. *)
Definition doc_state (postings_lists : Dict.t (list Z)) (done : list Z)
    (docID : Z) (seen : list string) : Prop :=
  Dict.get postings_lists ALL_DOC_IDS = Some (done ++ [docID])
  ∧ ∀ term, term ≠ ALL_DOC_IDS →
      default [] (Dict.get postings_lists term)
      = filter (λ n, term ∈ tokens_of n) done
        ++ (if decide (term ∈ seen) then [docID] else []).

End IndexInvariant.

(** ** The two entry points composed *)

(** [build_index(in_dir, out_dict, out_postings)]: the pickled dictionary
    and the postings file it leaves on disk. *)
Definition build_index (sent_tokenize word_tokenize : string → list string)
    (normalize : string → string) (in_dir : gmap string dirent)
    : res (gmap string entry * string) :=
  postings_lists ← create_postings_lists sent_tokenize word_tokenize normalize in_dir;
  Ret (write_index_to_disk postings_lists).

(** ** Boolean queries as syntax trees *)

Inductive bexp : Type :=
| Tm (w : string)
| Not (e : bexp)
| And (e1 e2 : bexp)
| Or (e1 e2 : bexp).

(** The words the parser treats specially, and those the evaluator does. *)
Definition is_reserved (w : string) : bool :=
  String.eqb w "(" || String.eqb w ")" || String.eqb w "NOT"
  || String.eqb w "AND" || String.eqb w "OR".

Definition is_operator (w : string) : bool :=
  String.eqb w "NOT" || String.eqb w "AND" || String.eqb w "OR".

(** Binding strength: [OR] 0, [AND] 1, [NOT] 2, a term 3. *)
Definition level (e : bexp) : nat :=
  match e with
  | Or _ _ => 0
  | And _ _ => 1
  | Not _ => 2
  | Tm _ => 3
  end.

(** The infix tokens of a query, written for a context that binds with
    strength [n]: parentheses only where the query binds weaker than its
    context; [AND] and [OR] group to the right. *)
Fixpoint infix (n : nat) (e : bexp) : list string :=
  let body :=
    match e with
    | Tm w => [w]
    | Not e1 => "NOT" :: infix 2 e1
    | And e1 e2 => infix 2 e1 ++ "AND" :: infix 1 e2
    | Or e1 e2 => infix 1 e1 ++ "OR" :: infix 0 e2
    end in
  if level e <? n then "(" :: body ++ [")"] else body.

(** The postfix form of a query, terms normalised. *)
Fixpoint postfix (normalize : string → string) (e : bexp) : list string :=
  match e with
  | Tm w => [normalize w]
  | Not e1 => postfix normalize e1 ++ ["NOT"]
  | And e1 e2 => postfix normalize e1 ++ postfix normalize e2 ++ ["AND"]
  | Or e1 e2 => postfix normalize e1 ++ postfix normalize e2 ++ ["OR"]
  end.

(** The terms of a query, left to right. *)
Fixpoint terms (e : bexp) : list string :=
  match e with
  | Tm w => [w]
  | Not e1 => terms e1
  | And e1 e2 => terms e1 ++ terms e2
  | Or e1 e2 => terms e1 ++ terms e2
  end.

(** No negation is applied directly to a negation. *)
Fixpoint no_double_not (e : bexp) : bool :=
  match e with
  | Tm _ => true
  | Not e1 => match e1 with Not _ => false | _ => true end && no_double_not e1
  | And e1 e2 => no_double_not e1 && no_double_not e2
  | Or e1 e2 => no_double_not e1 && no_double_not e2
  end.

(** The documents a query denotes: [post w] are the documents of term [w]
    and [universe] all documents. *)
Fixpoint sem (post : string → gset Z) (universe : gset Z) (e : bexp) : gset Z :=
  match e with
  | Tm w => post w
  | Not e1 => universe ∖ sem post universe e1
  | And e1 e2 => sem post universe e1 ∩ sem post universe e2
  | Or e1 e2 => sem post universe e1 ∪ sem post universe e2
  end.

(** What the evaluator computes on the postfix form, list by list: a
    negated right operand of [AND] is taken as a set difference. *)
Fixpoint den (post : string → list Z) (all_docs : list Z) (e : bexp) : list Z :=
  match e with
  | Tm w => post w
  | Not e1 => diff all_docs (den post all_docs e1)
  | And e1 e2 =>
      match e2 with
      | Not e2' => diff (den post all_docs e1) (den post all_docs e2')
      | _ => inter (den post all_docs e1) (den post all_docs e2)
      end
  | Or e1 e2 => linear_or (den post all_docs e1) (den post all_docs e2)
  end.

(** The number of unmatched ['('] after the tokens, or [None] once a [')']
    has come without one. *)
Fixpoint paren_depth (tokens : list string) (depth : nat) : option nat :=
  match tokens with
  | [] => Some depth
  | token :: tokens' =>
      if String.eqb token "(" then paren_depth tokens' (S depth)
      else if String.eqb token ")" then
        match depth with
        | 0 => None
        | S depth' => paren_depth tokens' depth'
        end
      else paren_depth tokens' depth
  end.

(** The line [run_search] writes for one result. *)
Definition result_line (search_results : list Z) : string :=
  Py.join " " (Py.str <$> search_results) +:+ newline.

(** The number of ['('] on the operator stack. *)
Definition open_parens (operator_stack : list string) : nat :=
  length (filter (λ t, t = "("%string) operator_stack).

(** The operators a query of binding strength [n] may leave pending on the
    operator stack: those that bind at least as strongly. *)
Definition pending_ok (n : nat) (pending : list string) : Prop :=
  Forall (λ op, op = "NOT"%string ∨ (n ≤ 1 ∧ op = "AND"%string)
                ∨ (n = 0 ∧ op = "OR"%string)) pending.

(** The top of the operator stack does not bind more strongly than the
    context of strength [n]. *)
Definition top_allows (n : nat) (operator_stack : list string) : Prop :=
  match operator_stack with
  | [] => True
  | top :: _ => (n ≤ 1 → top ≠ "NOT"%string) ∧ (n = 0 → top ≠ "AND"%string)
  end.

(** Reading [tokens] in a context of strength [n] appends to the output and
    to the operator stack what together is the postfix form of [e]. *)
Definition parsed (normalize : string → string) (tokens : list string)
    (e : bexp) (n : nat) : Prop :=
  ∀ rest output_queue operator_stack,
    top_allows n operator_stack →
    ∃ emitted pending,
      shunting_yard_loop normalize (tokens ++ rest) output_queue operator_stack
      = shunting_yard_loop normalize rest (output_queue ++ emitted)
          (pending ++ operator_stack)
      ∧ emitted ++ pending = postfix normalize e
      ∧ pending_ok n pending.

(** Term [w] is looked up to the ascending list [post w], and is not taken
    for an operator by the evaluator. *)
Definition term_resolves (dictionary : gmap string entry) (postings_fo : string)
    (post : string → list Z) (w : string) : Prop :=
  is_operator w = false
  ∧ strictly_ascending (post w)
  ∧ ∃ s, get_query_result dictionary postings_fo (Term w)
         = Ret (mkQueryResult (post w) s).

(** The evaluator, started on the postfix form of [e] followed by [rest],
    comes to [rest] with the list of [e] pushed on the stack.  A negation
    needs the token after it to be neither [AND] nor [NOT]. *)
Definition evaluates (dictionary : gmap string entry) (postings_fo : string)
    (normalize : string → string) (post : string → list Z) (all_docs : list Z)
    (e : bexp) : Prop :=
  ∀ rest stack query_res,
    match e with
    | Not _ => head rest ≠ Some "AND"%string ∧ head rest ≠ Some "NOT"%string
    | _ => True
    end →
    ∃ s,
      eval_loop dictionary postings_fo (postfix normalize e ++ rest) stack query_res
      = eval_loop dictionary postings_fo rest
          (mkQueryResult (den (λ w, post (normalize w)) all_docs e) s :: stack)
          (Some (mkQueryResult (den (λ w, post (normalize w)) all_docs e) s)).

(** The postings of a term in the example collection. *)
Definition example_post (w : string) : list Z :=
  default [] (Dict.get example_postings_lists w).

(** Document [n] satisfies the query [e], given which documents there are
    and which terms they contain. *)
Fixpoint holds (has_term : string → Z → Prop) (is_doc : Z → Prop) (e : bexp)
    (n : Z) : Prop :=
  match e with
  | Tm w => has_term w n
  | Not e1 => is_doc n ∧ ¬ holds has_term is_doc e1 n
  | And e1 e2 => holds has_term is_doc e1 n ∧ holds has_term is_doc e2 n
  | Or e1 e2 => holds has_term is_doc e1 n ∨ holds has_term is_doc e2 n
  end.

(** * Proofs *)

(** ** The result monad *)

Lemma getitem_Some {A} (l : list A) i x : l !! i = Some x → getitem l i = Ret x.
Proof. unfold getitem. by intros ->. Qed.

Lemma getitem_lt {A} (l : list A) i :
  i < length l → ∃ x, l !! i = Some x ∧ getitem l i = Ret x.
Proof.
  intros Hi. destruct (lookup_lt_is_Some_2 l i Hi) as [x Hx].
  exists x. split; [done|]. by apply getitem_Some.
Qed.

(** ** Skip pointers *)

Lemma has_skip_true idx skip total :
  has_skip idx skip total = true ↔ skip ≠ 0 ∧ idx mod skip = 0 ∧ idx + skip < total.
Proof.
  unfold has_skip. destruct (Nat.eqb_spec skip 0) as [->|Hs].
  - split; [done | by intros [? _]].
  - destruct (Nat.eqb_spec (idx mod skip) 0) as [Hm|Hm];
      destruct (Nat.ltb_spec (idx + skip) total) as [Hl|Hl]; simpl;
      split; try done; try (intros (_ & ? & ?); lia).
Qed.

Lemma skip_loop_spec fuel l skip bound j y :
  l !! j = Some y → (y ≤ bound)%Z → length l - j < fuel →
  ∃ j' y', skip_loop fuel l skip bound j = Ret j' ∧ j ≤ j'
           ∧ l !! j' = Some y' ∧ (y' ≤ bound)%Z.
Proof.
  revert j y. induction fuel as [|fuel IH]; intros j y Hj Hy Hfuel; [lia|].
  simpl. destruct (has_skip j skip (length l)) eqn:Hs; [|by eauto 10].
  apply has_skip_true in Hs as (Hne & _ & Hlt).
  destruct (getitem_lt l (j + skip) Hlt) as (x & Hx & ->). simpl.
  destruct (Z.leb_spec x bound) as [Hle|Hgt]; [|by eauto 10].
  destruct (IH (j + skip) x Hx Hle) as (j' & y' & -> & ? & ? & ?); [lia|].
  exists j', y'. repeat split; [lia|done..].
Qed.

Lemma advance_spec fuel l skip bound j y :
  l !! j = Some y → length l - j < fuel →
  ∃ j', advance fuel l skip bound j = Ret j' ∧ j < j' ≤ length l
        ∧ (j' = j + 1 ∨ ∃ y', l !! j' = Some y' ∧ (y' ≤ bound)%Z).
Proof.
  intros Hj Hfuel. pose proof (lookup_lt_Some _ _ _ Hj) as Hlen.
  unfold advance. destruct (has_skip j skip (length l)) eqn:Hs; simpl.
  - apply has_skip_true in Hs as (Hne & _ & Hlt).
    destruct (getitem_lt l (j + skip) Hlt) as (x & Hx & ->). simpl.
    destruct (Z.leb_spec x bound) as [Hle|Hgt]; simpl.
    + destruct (skip_loop_spec fuel l skip bound (j + skip) x Hx Hle)
        as (j' & y' & -> & ? & Hy' & ?); [lia|].
      pose proof (lookup_lt_Some _ _ _ Hy').
      exists j'. repeat split; [lia..|]. right. eauto.
    + exists (j + 1). repeat split; [lia..|]. by left.
  - exists (j + 1). repeat split; [lia..|]. by left.
Qed.

(** ** Totality of the merge loops on arbitrary lists *)

Section Totality.

Variables (list_1 : list Z) (skip_1 : nat) (list_2 : list Z) (skip_2 : nat).

Lemma and_loop_total fuel i j results :
  (length list_1 - i) + (length list_2 - j) < fuel →
  ∃ r, and_loop list_1 skip_1 list_2 skip_2 fuel i j results = Ret r.
Proof.
  revert i j results.
  induction fuel as [|fuel IH]; intros i j results Hfuel; [lia|].
  simpl. destruct (Nat.ltb_spec i (length list_1)) as [Hi|Hi]; [|by eauto].
  destruct (Nat.ltb_spec j (length list_2)) as [Hj|Hj]; [|by eauto]. simpl.
  destruct (getitem_lt list_1 i Hi) as (a & Ha & ->).
  destruct (getitem_lt list_2 j Hj) as (b & Hb & ->). simpl.
  destruct (Z.eqb_spec a b); [apply IH; lia|].
  destruct (Z.ltb_spec a b).
  { destruct (advance_spec fuel list_1 skip_1 b i a Ha) as (i' & -> & ? & _);
      [lia|]. simpl. apply IH. lia. }
  destruct (Z.ltb_spec b a); [|lia].
  destruct (advance_spec fuel list_2 skip_2 a j b Hb) as (j' & -> & ? & _);
    [lia|]. simpl. apply IH. lia.
Qed.

Lemma and_not_loop_total fuel i j results :
  (length list_1 - i) + (length list_2 - j) < fuel →
  ∃ r, and_not_loop list_1 list_2 skip_2 fuel i j results = Ret r.
Proof.
  revert i j results.
  induction fuel as [|fuel IH]; intros i j results Hfuel; [lia|].
  simpl. destruct (Nat.ltb_spec i (length list_1)) as [Hi|Hi]; [|by eauto].
  destruct (Nat.ltb_spec j (length list_2)) as [Hj|Hj]; [|by eauto]. simpl.
  destruct (getitem_lt list_1 i Hi) as (a & Ha & ->).
  destruct (getitem_lt list_2 j Hj) as (b & Hb & ->). simpl.
  destruct (Z.ltb_spec a b); [apply IH; lia|].
  destruct (Z.eqb_spec a b); [apply IH; lia|].
  destruct (Z.gtb_spec a b); [|lia].
  destruct (advance_spec fuel list_2 skip_2 a j b Hb) as (j' & -> & ? & _);
    [lia|]. simpl. apply IH. lia.
Qed.

End Totality.

(** ** Ascending lists *)

Lemma sorted_lookup_lt l i k x y :
  strictly_ascending l → l !! i = Some x → l !! k = Some y → i < k → (x < y)%Z.
Proof.
  intros Hl. revert i k. induction Hl as [|z l Hl IH Hz]; intros i k Hi Hk Hik.
  { by rewrite lookup_nil in Hi. }
  destruct k as [|k]; [lia|]. simpl in Hk. destruct i as [|i]; simpl in Hi.
  - simplify_eq. rewrite Forall_forall in Hz.
    apply Hz. by eapply list_elem_of_lookup_2.
  - eapply IH; [done..|lia].
Qed.

Lemma sorted_lookup_le l i k x y :
  strictly_ascending l → l !! i = Some x → l !! k = Some y → i ≤ k → (x ≤ y)%Z.
Proof.
  intros Hl Hi Hk Hik. destruct (decide (i = k)) as [->|].
  - simplify_eq. lia.
  - apply Z.lt_le_incl. eapply sorted_lookup_lt; [done..|lia].
Qed.

Lemma elem_of_drop {A} (x : A) n l :
  x ∈ drop n l ↔ ∃ k, n ≤ k ∧ l !! k = Some x.
Proof.
  rewrite list_elem_of_lookup. split.
  - intros [i Hi]. rewrite lookup_drop in Hi. exists (n + i). split; [lia|done].
  - intros (k & Hk & Hx). exists (k - n). rewrite lookup_drop.
    by replace (n + (k - n)) with k by lia.
Qed.

Lemma sorted_drop_ge l j b x :
  strictly_ascending l → l !! j = Some b → x ∈ drop j l → (b ≤ x)%Z.
Proof.
  intros Hl Hb (k & Hk & Hx)%elem_of_drop. by eapply sorted_lookup_le.
Qed.

Lemma sorted_drop_S_gt l j b x :
  strictly_ascending l → l !! j = Some b → x ∈ drop (S j) l → (b < x)%Z.
Proof.
  intros Hl Hb (k & Hk & Hx)%elem_of_drop. eapply sorted_lookup_lt; [done..|lia].
Qed.

(** What a pointer advance passes over lies strictly below the bound. *)
Lemma skipped_lt l i i' a b :
  strictly_ascending l → l !! i = Some a → (a < b)%Z → i < i' →
  (i' = i + 1 ∨ ∃ y', l !! i' = Some y' ∧ (y' ≤ b)%Z) →
  ∀ k y, i ≤ k < i' → l !! k = Some y → (y < b)%Z.
Proof.
  intros Hl Ha Hab Hii' [->|(y' & Hy' & Hle)] k y Hk Hy.
  - assert (k = i) as -> by lia. by simplify_eq.
  - assert (y < y')%Z; [|lia]. eapply sorted_lookup_lt; [done..|lia].
Qed.

Lemma filter_ext_in {A} (P Q : A → Prop) `{!∀ x, Decision (P x), !∀ x, Decision (Q x)}
    (l : list A) :
  (∀ x, x ∈ l → (P x ↔ Q x)) → filter P l = filter Q l.
Proof.
  induction l as [|x l IH]; intros Hext; [done|].
  rewrite !filter_cons. rewrite IH by (intros; apply Hext; by right).
  destruct (decide (P x)) as [HP|HP], (decide (Q x)) as [HQ|HQ]; try done.
  - apply Hext in HP; [done | by left].
  - apply Hext in HQ; [done | by left].
Qed.

Lemma filter_drop_skip {A} (P : A → Prop) `{!∀ x, Decision (P x)} (l : list A) i i' :
  i ≤ i' → (∀ k y, i ≤ k < i' → l !! k = Some y → ¬ P y) →
  filter P (drop i l) = filter P (drop i' l).
Proof.
  intros Hle. replace i' with (i + (i' - i)) by lia.
  generalize (i' - i) as d. clear Hle i'. intros d. revert i.
  induction d as [|d IH]; intros i Hskip.
  { by rewrite Nat.add_0_r. }
  destruct (l !! i) as [y|] eqn:Hy.
  - rewrite (drop_S l y i Hy). rewrite filter_cons_False by (eapply Hskip; [|done]; lia).
    replace (i + S d) with (S i + d) by lia. apply IH.
    intros k z Hk. apply Hskip. lia.
  - apply lookup_ge_None in Hy. by rewrite !drop_ge by lia.
Qed.

(** Membership in the rest of [l2] is not affected by dropping elements
    that lie strictly below everything it is asked about. *)
Lemma elem_of_drop_skip l2 j j' a x :
  j ≤ j' → (∀ k y, j ≤ k < j' → l2 !! k = Some y → (y < a)%Z) → (a ≤ x)%Z →
  x ∈ drop j l2 ↔ x ∈ drop j' l2.
Proof.
  intros Hle Hlt Hx. rewrite !elem_of_drop. split.
  - intros (k & Hk & Hkx). exists k. split; [|done].
    destruct (decide (j' ≤ k)); [done|].
    assert (x < a)%Z by (apply (Hlt k); [lia|done]). lia.
  - intros (k & Hk & Hkx). exists k. split; [lia|done].
Qed.

(** ** The merge loops on ascending lists *)

Lemma inter_nil_r a : inter a [] = [].
Proof.
  unfold inter. induction a as [|x a IH]; [done|].
  rewrite filter_cons_False; [done | apply not_elem_of_nil].
Qed.

Lemma diff_nil_r a : diff a [] = a.
Proof.
  unfold diff. induction a as [|x a IH]; [done|].
  rewrite filter_cons_True by apply not_elem_of_nil. by rewrite IH.
Qed.

Section Correct.

Variables (list_1 : list Z) (skip_1 : nat) (list_2 : list Z) (skip_2 : nat).
Hypotheses (Hl1 : strictly_ascending list_1) (Hl2 : strictly_ascending list_2).

Lemma inter_step_eq i j a :
  list_1 !! i = Some a → list_2 !! j = Some a →
  inter (drop i list_1) (drop j list_2)
  = a :: inter (drop (S i) list_1) (drop (S j) list_2).
Proof.
  intros Ha Hb. rewrite (drop_S _ _ _ Ha), (drop_S _ _ _ Hb). unfold inter.
  rewrite filter_cons_True by left. f_equal. apply filter_ext_in.
  intros x Hx. rewrite elem_of_cons.
  pose proof (sorted_drop_S_gt _ _ _ _ Hl1 Ha Hx).
  split; [intros [->|]; [lia|done] | by right].
Qed.

Lemma inter_step_l i i' j a b :
  list_1 !! i = Some a → list_2 !! j = Some b → (a < b)%Z → i < i' →
  (i' = i + 1 ∨ ∃ y', list_1 !! i' = Some y' ∧ (y' ≤ b)%Z) →
  inter (drop i list_1) (drop j list_2) = inter (drop i' list_1) (drop j list_2).
Proof.
  intros Ha Hb Hab Hii' Hi'. unfold inter. apply filter_drop_skip; [lia|].
  intros k y Hk Hy Hin.
  pose proof (skipped_lt _ _ _ _ _ Hl1 Ha Hab Hii' Hi' k y Hk Hy).
  pose proof (sorted_drop_ge _ _ _ _ Hl2 Hb Hin). lia.
Qed.

Lemma elem_of_drop_step_r i j j' a b x :
  list_1 !! i = Some a → list_2 !! j = Some b → (b < a)%Z → j < j' →
  (j' = j + 1 ∨ ∃ y', list_2 !! j' = Some y' ∧ (y' ≤ a)%Z) →
  x ∈ drop i list_1 → x ∈ drop j list_2 ↔ x ∈ drop j' list_2.
Proof.
  intros Ha Hb Hba Hjj' Hj' Hx. apply (elem_of_drop_skip _ _ _ a); [lia| |].
  - by apply (skipped_lt list_2 j j' b a).
  - by apply (sorted_drop_ge list_1 i a x).
Qed.

Lemma inter_step_r i j j' a b :
  list_1 !! i = Some a → list_2 !! j = Some b → (b < a)%Z → j < j' →
  (j' = j + 1 ∨ ∃ y', list_2 !! j' = Some y' ∧ (y' ≤ a)%Z) →
  inter (drop i list_1) (drop j list_2) = inter (drop i list_1) (drop j' list_2).
Proof.
  intros Ha Hb Hba Hjj' Hj'. unfold inter. apply filter_ext_in.
  intros x Hx. by eapply elem_of_drop_step_r.
Qed.

Lemma diff_step_r i j j' a b :
  list_1 !! i = Some a → list_2 !! j = Some b → (b < a)%Z → j < j' →
  (j' = j + 1 ∨ ∃ y', list_2 !! j' = Some y' ∧ (y' ≤ a)%Z) →
  diff (drop i list_1) (drop j list_2) = diff (drop i list_1) (drop j' list_2).
Proof.
  intros Ha Hb Hba Hjj' Hj'. unfold diff. apply filter_ext_in.
  intros x Hx. by rewrite (elem_of_drop_step_r i j j' a b x).
Qed.

Lemma diff_step_lt i j a b :
  list_1 !! i = Some a → list_2 !! j = Some b → (a < b)%Z →
  diff (drop i list_1) (drop j list_2)
  = a :: diff (drop (S i) list_1) (drop j list_2).
Proof.
  intros Ha Hb Hab. rewrite (drop_S _ _ _ Ha). unfold diff.
  rewrite filter_cons_True; [done|].
  intros Hin. pose proof (sorted_drop_ge _ _ _ _ Hl2 Hb Hin). lia.
Qed.

Lemma diff_step_eq i j a :
  list_1 !! i = Some a → list_2 !! j = Some a →
  diff (drop i list_1) (drop j list_2)
  = diff (drop (S i) list_1) (drop (S j) list_2).
Proof.
  intros Ha Hb. rewrite (drop_S _ _ _ Ha), (drop_S _ _ _ Hb). unfold diff.
  rewrite filter_cons_False by (intros Hn; apply Hn; left).
  apply filter_ext_in. intros x Hx. rewrite elem_of_cons.
  pose proof (sorted_drop_S_gt _ _ _ _ Hl1 Ha Hx).
  split; [intros Hn ?; apply Hn; by right | intros Hn [->|?]; [lia|done]].
Qed.

Lemma and_loop_correct fuel i j results :
  (length list_1 - i) + (length list_2 - j) < fuel →
  and_loop list_1 skip_1 list_2 skip_2 fuel i j results
  = Ret (results ++ inter (drop i list_1) (drop j list_2)).
Proof.
  revert i j results.
  induction fuel as [|fuel IH]; intros i j results Hfuel; [lia|].
  simpl. destruct (Nat.ltb_spec i (length list_1)) as [Hi|Hi]; simpl;
    [|by rewrite drop_ge, app_nil_r].
  destruct (Nat.ltb_spec j (length list_2)) as [Hj|Hj]; simpl;
    [|by rewrite (drop_ge list_2), inter_nil_r, app_nil_r].
  destruct (getitem_lt list_1 i Hi) as (a & Ha & ->).
  destruct (getitem_lt list_2 j Hj) as (b & Hb & ->). simpl.
  destruct (Z.eqb_spec a b) as [<-|Hne].
  { rewrite IH by lia. rewrite (inter_step_eq i j a), !Nat.add_1_r by done.
    by rewrite <-app_assoc. }
  destruct (Z.ltb_spec a b).
  { destruct (advance_spec fuel list_1 skip_1 b i a Ha)
      as (i' & -> & ? & Hi'); [lia|]. simpl.
    rewrite IH by lia. by rewrite (inter_step_l i i' j a b) by (done || lia). }
  destruct (Z.ltb_spec b a); [|lia].
  destruct (advance_spec fuel list_2 skip_2 a j b Hb)
    as (j' & -> & ? & Hj'); [lia|]. simpl.
  rewrite IH by lia. by rewrite (inter_step_r i j j' a b) by (done || lia).
Qed.

Lemma and_not_loop_correct fuel i j results :
  (length list_1 - i) + (length list_2 - j) < fuel →
  ∃ i' results',
    and_not_loop list_1 list_2 skip_2 fuel i j results = Ret (i', results')
    ∧ (if i' <? length list_1 then results' ++ drop i' list_1 else results')
      = results ++ diff (drop i list_1) (drop j list_2).
Proof.
  revert i j results.
  induction fuel as [|fuel IH]; intros i j results Hfuel; [lia|].
  simpl. destruct (Nat.ltb_spec i (length list_1)) as [Hi|Hi]; simpl.
  2:{ exists i, results. split; [done|].
      destruct (Nat.ltb_spec i (length list_1)); [lia|].
      by rewrite drop_ge, app_nil_r. }
  destruct (Nat.ltb_spec j (length list_2)) as [Hj|Hj]; simpl.
  2:{ exists i, results. split; [done|].
      destruct (Nat.ltb_spec i (length list_1)); [|lia].
      by rewrite (drop_ge list_2), diff_nil_r. }
  destruct (getitem_lt list_1 i Hi) as (a & Ha & ->).
  destruct (getitem_lt list_2 j Hj) as (b & Hb & ->). simpl.
  destruct (Z.ltb_spec a b).
  { destruct (IH (i + 1) j (results ++ [a])) as (i' & r' & -> & Heq); [lia|].
    exists i', r'. split; [done|]. rewrite Heq.
    rewrite (diff_step_lt i j a b), !Nat.add_1_r by done.
    by rewrite <-app_assoc. }
  destruct (Z.eqb_spec a b) as [<-|Hne].
  { destruct (IH (i + 1) (j + 1) results) as (i' & r' & -> & Heq); [lia|].
    exists i', r'. split; [done|]. rewrite Heq.
    by rewrite (diff_step_eq i j a), !Nat.add_1_r by done. }
  destruct (Z.gtb_spec a b); [|lia].
  destruct (advance_spec fuel list_2 skip_2 a j b Hb)
    as (j' & -> & ? & Hj'); [lia|]. simpl.
  destruct (IH i j' results) as (i' & r' & -> & Heq); [lia|].
  exists i', r'. split; [done|]. rewrite Heq.
  by rewrite (diff_step_r i j j' a b) by (done || lia).
Qed.

End Correct.

(** ** The linear merges *)

Lemma linear_and_cons a l1 b l2 :
  linear_and (a :: l1) (b :: l2)
  = if (a =? b)%Z then a :: linear_and l1 l2
    else if (a <? b)%Z then linear_and l1 (b :: l2)
    else linear_and (a :: l1) l2.
Proof. reflexivity. Qed.

Lemma linear_and_not_cons a l1 b l2 :
  linear_and_not (a :: l1) (b :: l2)
  = if (a <? b)%Z then a :: linear_and_not l1 (b :: l2)
    else if (a =? b)%Z then linear_and_not l1 l2
    else linear_and_not (a :: l1) l2.
Proof. reflexivity. Qed.

Lemma linear_or_cons a l1 b l2 :
  linear_or (a :: l1) (b :: l2)
  = if (a <? b)%Z then a :: linear_or l1 (b :: l2)
    else if (b <? a)%Z then b :: linear_or (a :: l1) l2
    else a :: linear_or l1 l2.
Proof. reflexivity. Qed.

Lemma linear_or_nil_l l2 : linear_or [] l2 = l2.
Proof. by destruct l2. Qed.

Lemma linear_or_nil_r l1 : linear_or l1 [] = l1.
Proof. by destruct l1. Qed.

Lemma linear_and_not_nil_r l1 : linear_and_not l1 [] = l1.
Proof. by destruct l1. Qed.

Lemma strictly_ascending_inv a l :
  strictly_ascending (a :: l) → strictly_ascending l ∧ ∀ x, x ∈ l → (a < x)%Z.
Proof.
  intros [Hl Ha]%StronglySorted_inv. split; [done|]. by apply Forall_forall.
Qed.

Lemma strictly_ascending_cons a l :
  strictly_ascending l → (∀ x, x ∈ l → (a < x)%Z) → strictly_ascending (a :: l).
Proof. intros Hl Ha. constructor; [done|]. by apply Forall_forall. Qed.

Lemma linear_and_inter l1 l2 :
  strictly_ascending l1 → strictly_ascending l2 → linear_and l1 l2 = inter l1 l2.
Proof.
  intros H1. revert l2. induction l1 as [|a l1 IH]; intros l2 H2.
  { by destruct l2. }
  induction l2 as [|b l2 IH2].
  { by rewrite inter_nil_r. }
  pose proof (strictly_ascending_inv _ _ H1) as [H1' _].
  pose proof (strictly_ascending_inv _ _ H2) as [H2' _].
  rewrite linear_and_cons.
  destruct (Z.eqb_spec a b) as [<-|Hne].
  { rewrite IH by done. symmetry.
    by apply (inter_step_eq (a :: l1) (a :: l2) H1 0 0 a). }
  destruct (Z.ltb_spec a b).
  - rewrite IH by done. symmetry.
    apply (inter_step_l (a :: l1) (b :: l2) H1 H2 0 1 0 a b); auto with lia.
  - rewrite IH2 by done. symmetry.
    apply (inter_step_r (a :: l1) (b :: l2) H1 H2 0 0 1 a b); auto with lia.
Qed.

Lemma linear_and_not_diff l1 l2 :
  strictly_ascending l1 → strictly_ascending l2 →
  linear_and_not l1 l2 = diff l1 l2.
Proof.
  intros H1. revert l2. induction l1 as [|a l1 IH]; intros l2 H2.
  { by destruct l2. }
  induction l2 as [|b l2 IH2].
  { by rewrite diff_nil_r. }
  pose proof (strictly_ascending_inv _ _ H1) as [H1' _].
  pose proof (strictly_ascending_inv _ _ H2) as [H2' _].
  rewrite linear_and_not_cons.
  destruct (Z.ltb_spec a b).
  { rewrite IH by done. symmetry.
    by apply (diff_step_lt (a :: l1) (b :: l2) H2 0 0 a b). }
  destruct (Z.eqb_spec a b) as [<-|Hne].
  - rewrite IH by done. symmetry.
    by apply (diff_step_eq (a :: l1) (a :: l2) H1 0 0 a).
  - rewrite IH2 by done. symmetry.
    apply (diff_step_r (a :: l1) (b :: l2) H1 H2 0 0 1 a b); auto with lia.
Qed.

Lemma linear_or_elem x l1 l2 : x ∈ linear_or l1 l2 ↔ x ∈ l1 ∨ x ∈ l2.
Proof.
  revert l2. induction l1 as [|a l1 IH]; intros l2.
  { rewrite linear_or_nil_l, elem_of_nil. tauto. }
  induction l2 as [|b l2 IH2].
  { rewrite linear_or_nil_r, elem_of_nil. tauto. }
  rewrite linear_or_cons.
  destruct (Z.ltb_spec a b); [rewrite elem_of_cons, IH, !elem_of_cons; tauto|].
  destruct (Z.ltb_spec b a); [rewrite elem_of_cons, IH2, !elem_of_cons; tauto|].
  assert (a = b) as -> by lia. rewrite elem_of_cons, IH, !elem_of_cons. tauto.
Qed.

Lemma linear_or_sorted l1 l2 :
  strictly_ascending l1 → strictly_ascending l2 →
  strictly_ascending (linear_or l1 l2).
Proof.
  intros H1. revert l2. induction l1 as [|a l1 IH]; intros l2 H2.
  { by rewrite linear_or_nil_l. }
  induction l2 as [|b l2 IH2].
  { by rewrite linear_or_nil_r. }
  pose proof (strictly_ascending_inv _ _ H1) as [H1' Ha].
  pose proof (strictly_ascending_inv _ _ H2) as [H2' Hb].
  rewrite linear_or_cons.
  destruct (Z.ltb_spec a b).
  { apply strictly_ascending_cons; [by apply IH|].
    intros x [?|[->|?]%elem_of_cons]%linear_or_elem; [by apply Ha|lia|].
    assert (b < x)%Z by (by apply Hb). lia. }
  destruct (Z.ltb_spec b a).
  { apply strictly_ascending_cons; [by apply IH2|].
    intros x [[->|?]%elem_of_cons|?]%linear_or_elem; [lia| |by apply Hb].
    assert (a < x)%Z by (by apply Ha). lia. }
  assert (a = b) as -> by lia.
  apply strictly_ascending_cons; [by apply IH|].
  intros x [?|?]%linear_or_elem; [by apply Ha|by apply Hb].
Qed.

Lemma or_loop_correct l1 l2 fuel i j results :
  (length l1 - i) + (length l2 - j) < fuel →
  ∃ i' j' r',
    or_loop l1 l2 fuel i j results = Ret (i', j', r')
    ∧ (if j' <? length l2
       then (if i' <? length l1 then r' ++ drop i' l1 else r') ++ drop j' l2
       else (if i' <? length l1 then r' ++ drop i' l1 else r'))
      = results ++ linear_or (drop i l1) (drop j l2).
Proof.
  revert i j results.
  induction fuel as [|fuel IH]; intros i j results Hfuel; [lia|].
  simpl. destruct (Nat.ltb_spec i (length l1)) as [Hi|Hi]; simpl.
  2:{ exists i, j, results. split; [done|].
      destruct (Nat.ltb_spec i (length l1)); [lia|].
      rewrite (drop_ge l1), linear_or_nil_l by done.
      destruct (Nat.ltb_spec j (length l2)); [done|].
      by rewrite drop_ge, app_nil_r. }
  destruct (Nat.ltb_spec j (length l2)) as [Hj|Hj]; simpl.
  2:{ exists i, j, results. split; [done|].
      destruct (Nat.ltb_spec i (length l1)); [|lia].
      destruct (Nat.ltb_spec j (length l2)); [lia|].
      by rewrite (drop_ge l2), linear_or_nil_r. }
  destruct (getitem_lt l1 i Hi) as (a & Ha & ->).
  destruct (getitem_lt l2 j Hj) as (b & Hb & ->). simpl.
  rewrite (drop_S _ _ _ Ha), (drop_S _ _ _ Hb), linear_or_cons.
  destruct (Z.ltb_spec a b).
  { destruct (IH (i + 1) j (results ++ [a])) as (i' & j' & r' & -> & Heq); [lia|].
    exists i', j', r'. split; [done|]. rewrite Heq.
    by rewrite Nat.add_1_r, (drop_S _ _ _ Hb), <-app_assoc. }
  destruct (Z.ltb_spec b a).
  { destruct (IH i (j + 1) (results ++ [b])) as (i' & j' & r' & -> & Heq); [lia|].
    exists i', j', r'. split; [done|]. rewrite Heq.
    by rewrite Nat.add_1_r, (drop_S _ _ _ Ha), <-app_assoc. }
  destruct (Z.eqb_spec a b); [|lia].
  destruct (IH (i + 1) (j + 1) (results ++ [a])) as (i' & j' & r' & -> & Heq); [lia|].
  exists i', j', r'. split; [done|]. rewrite Heq.
  by rewrite !Nat.add_1_r, <-app_assoc.
Qed.

(** ** The three merges in closed form *)

Lemma and_merge_inter l1 s1 l2 s2 :
  strictly_ascending l1 → strictly_ascending l2 →
  and_merge l1 s1 l2 s2
  = Ret (mkQueryResult (inter l1 l2) (int_sqrt (length (inter l1 l2)))).
Proof.
  intros H1 H2. unfold and_merge, merge_fuel.
  by rewrite (and_loop_correct l1 s1 l2 s2 H1 H2) by (simpl; lia).
Qed.

Lemma and_not_merge_diff l1 l2 s2 :
  strictly_ascending l1 → strictly_ascending l2 →
  and_not_merge l1 l2 s2
  = Ret (mkQueryResult (diff l1 l2) (int_sqrt (length (diff l1 l2)))).
Proof.
  intros H1 H2. unfold and_not_merge, merge_fuel.
  destruct (and_not_loop_correct l1 l2 s2 H1 H2 (S (length l1 + length l2)) 0 0 [])
    as (i' & r' & -> & Heq); [simpl; lia|].
  simpl in *. by rewrite Heq.
Qed.

Lemma or_merge_linear l1 l2 :
  or_merge l1 l2
  = Ret (mkQueryResult (linear_or l1 l2)
           (if (length l1 =? 0) || (length l2 =? 0) then 0
            else int_sqrt (length (linear_or l1 l2)))).
Proof.
  unfold or_merge, merge_fuel.
  destruct l1 as [|a l1]; [by rewrite linear_or_nil_l|].
  destruct l2 as [|b l2]; [done|].
  destruct (or_loop_correct (a :: l1) (b :: l2)
              (S (length (a :: l1) + length (b :: l2))) 0 0 [])
    as (i' & j' & r' & Hloop & Heq); [simpl; lia|].
  change ((length (a :: l1) =? 0) || (length (b :: l2) =? 0)) with false.
  cbv iota. rewrite Hloop. cbn [mbind res_bind]. cbv zeta. by rewrite Heq.
Qed.

Lemma int_sqrt_spec n : is_floor_sqrt (int_sqrt n) n.
Proof.
  unfold is_floor_sqrt, int_sqrt. rewrite !Nat.add_1_r. apply Nat.sqrt_specif.
Qed.

(** ** Ascending lists and sorted sets *)

Lemma ascending_NoDup l : strictly_ascending l → NoDup l.
Proof.
  induction l as [|a l IH]; intros Hl; [constructor|].
  apply strictly_ascending_inv in Hl as [Hl Ha].
  constructor; [|by apply IH]. intros Hin. specialize (Ha a Hin). lia.
Qed.

Lemma ascending_Sorted_le l : strictly_ascending l → Sorted Z.le l.
Proof.
  induction l as [|a l IH]; intros Hl; [constructor|].
  apply strictly_ascending_inv in Hl as [Hl Ha].
  constructor; [by apply IH|].
  destruct l as [|b l]; constructor.
  apply Z.lt_le_incl, Ha. by left.
Qed.

Lemma filter_ascending (P : Z → Prop) `{!∀ x, Decision (P x)} l :
  strictly_ascending l → strictly_ascending (filter P l).
Proof.
  induction l as [|a l IH]; intros Hl; [done|].
  apply strictly_ascending_inv in Hl as [Hl Ha].
  rewrite filter_cons. destruct (decide (P a)); [|by apply IH].
  apply strictly_ascending_cons; [by apply IH|].
  intros x [_ Hx]%list_elem_of_filter. by apply Ha.
Qed.

(** An ascending list is [sorted(X)] for the set [X] of its elements. *)
Lemma ascending_eq_sorted_set l (X : gset Z) :
  strictly_ascending l → (∀ x, x ∈ l ↔ x ∈ X) →
  l = merge_sort Z.le (elements X).
Proof.
  intros Hl Hx. apply (Sorted_unique Z.le).
  - by apply ascending_Sorted_le.
  - apply (Sorted_merge_sort Z.le).
  - rewrite merge_sort_Permutation. apply NoDup_Permutation.
    + by apply ascending_NoDup.
    + apply NoDup_elements.
    + intros x. by rewrite elem_of_elements.
Qed.

Lemma inter_ref l1 l2 : strictly_ascending l1 → inter l1 l2 = ref_and l1 l2.
Proof.
  intros H1. apply ascending_eq_sorted_set; [by apply filter_ascending|].
  intros x. unfold inter.
  rewrite list_elem_of_filter, elem_of_intersection, !elem_of_list_to_set. tauto.
Qed.

Lemma diff_ref l1 l2 : strictly_ascending l1 → diff l1 l2 = ref_and_not l1 l2.
Proof.
  intros H1. apply ascending_eq_sorted_set; [by apply filter_ascending|].
  intros x. unfold diff.
  rewrite list_elem_of_filter, elem_of_difference, !elem_of_list_to_set. tauto.
Qed.

Lemma linear_or_ref l1 l2 :
  strictly_ascending l1 → strictly_ascending l2 → linear_or l1 l2 = ref_or l1 l2.
Proof.
  intros H1 H2. apply ascending_eq_sorted_set; [by apply linear_or_sorted|].
  intros x. by rewrite linear_or_elem, elem_of_union, !elem_of_list_to_set.
Qed.

(** * The claims about the merge engine *)

(** C1. On strictly ascending (duplicate-free) inputs, with any skip
    strides and with either side possibly empty, [perform_and_query] returns
    the sorted list of the elements in both inputs, [perform_or_query] the
    sorted, deduplicated list of the elements in either input, and
    [perform_and_not_query] the sorted list of the elements of the first
    input that are not in the second: each is the naive set-based
    reference. *)
Theorem merges_equal_set_reference dictionary postings_fo l1 s1 l2 s2 :
  strictly_ascending l1 → strictly_ascending l2 →
  doc_Ids <$> perform_and_query dictionary postings_fo
                (Res (mkQueryResult l1 s1)) (Res (mkQueryResult l2 s2))
  = Ret (ref_and l1 l2)
  ∧ doc_Ids <$> perform_or_query dictionary postings_fo
                  (Res (mkQueryResult l1 s1)) (Res (mkQueryResult l2 s2))
    = Ret (ref_or l1 l2)
  ∧ doc_Ids <$> perform_and_not_query dictionary postings_fo
                  (Res (mkQueryResult l1 s1)) (Res (mkQueryResult l2 s2))
    = Ret (ref_and_not l1 l2).
Proof.
  intros H1 H2. unfold perform_and_query, perform_or_query, perform_and_not_query.
  cbn [get_query_result mbind res_bind doc_Ids skip_len].
  rewrite and_merge_inter, or_merge_linear, and_not_merge_diff by done.
  cbn [fmap res_fmap doc_Ids].
  by rewrite inter_ref, diff_ref, linear_or_ref.
Qed.

Lemma merges_equal_set_reference_witness :
  doc_Ids <$> perform_and_query ∅ "" (Res (mkQueryResult [1; 3; 5; 7; 9]%Z 2))
                (Res (mkQueryResult [3; 4; 9; 12]%Z 2))
  = Ret (ref_and [1; 3; 5; 7; 9]%Z [3; 4; 9; 12]%Z)
  ∧ doc_Ids <$> perform_or_query ∅ "" (Res (mkQueryResult [1; 3; 5; 7; 9]%Z 2))
                  (Res (mkQueryResult [3; 4; 9; 12]%Z 2))
    = Ret (ref_or [1; 3; 5; 7; 9]%Z [3; 4; 9; 12]%Z)
  ∧ doc_Ids <$> perform_and_not_query ∅ "" (Res (mkQueryResult [1; 3; 5; 7; 9]%Z 2))
                  (Res (mkQueryResult [3; 4; 9; 12]%Z 2))
    = Ret (ref_and_not [1; 3; 5; 7; 9]%Z [3; 4; 9; 12]%Z).
Proof.
  apply (merges_equal_set_reference ∅ "" [1; 3; 5; 7; 9]%Z 2 [3; 4; 9; 12]%Z 2);
    unfold strictly_ascending; repeat constructor; lia.
Defined.

(** C8. On strictly ascending inputs and for every stride (0, 1 or larger),
    the skip-accelerated intersection and set difference return exactly
    what the linear, non-skipping two-pointer merges return. *)
Theorem skip_merges_equal_linear_merges dictionary postings_fo l1 s1 l2 s2 :
  strictly_ascending l1 → strictly_ascending l2 →
  doc_Ids <$> perform_and_query dictionary postings_fo
                (Res (mkQueryResult l1 s1)) (Res (mkQueryResult l2 s2))
  = Ret (linear_and l1 l2)
  ∧ doc_Ids <$> perform_and_not_query dictionary postings_fo
                  (Res (mkQueryResult l1 s1)) (Res (mkQueryResult l2 s2))
    = Ret (linear_and_not l1 l2).
Proof.
  intros H1 H2. unfold perform_and_query, perform_and_not_query.
  cbn [get_query_result mbind res_bind doc_Ids skip_len].
  rewrite and_merge_inter, and_not_merge_diff by done.
  cbn [fmap res_fmap doc_Ids].
  by rewrite linear_and_inter, linear_and_not_diff.
Qed.

Lemma skip_merges_equal_linear_merges_witness :
  doc_Ids <$> perform_and_query ∅ ""
                (Res (mkQueryResult [1; 2; 3; 5; 8; 13; 21; 34; 55]%Z 3))
                (Res (mkQueryResult [8; 9; 21; 55; 56]%Z 1))
  = Ret (linear_and [1; 2; 3; 5; 8; 13; 21; 34; 55]%Z [8; 9; 21; 55; 56]%Z)
  ∧ doc_Ids <$> perform_and_not_query ∅ ""
                  (Res (mkQueryResult [1; 2; 3; 5; 8; 13; 21; 34; 55]%Z 3))
                  (Res (mkQueryResult [8; 9; 21; 55; 56]%Z 1))
    = Ret (linear_and_not [1; 2; 3; 5; 8; 13; 21; 34; 55]%Z [8; 9; 21; 55; 56]%Z).
Proof.
  apply (skip_merges_equal_linear_merges ∅ ""
           [1; 2; 3; 5; 8; 13; 21; 34; 55]%Z 3 [8; 9; 21; 55; 56]%Z 1);
    unfold strictly_ascending; repeat constructor; lia.
Defined.

(** C9 as stated fails: a stride of 1 does not disable skipping.  At
    position 0 of a two-element list [has_skip] reports a usable skip of
    stride 1. *)
Lemma stride_one_skips_counterexample :
  has_skip 0 1 2 = true
  ∧ ¬ (∀ i s n, s = 0 ∨ s = 1 → has_skip i s n = false).
Proof.
  split; [reflexivity|]. intros H. by specialize (H 0 1 2 (or_intror eq_refl)).
Qed.

(** C9, amended.  [has_skip] reports a usable skip from position [i] to
    [i + s] iff the stride [s] is not zero, [i mod s = 0] and [i + s] is
    within bounds.  A stride of 0 never yields a skip; a stride of 1 is not
    disabled: it yields a skip (of one position) from every position but
    the last. *)
Theorem has_skip_usable i s n :
  (has_skip i s n = true ↔ s ≠ 0 ∧ i mod s = 0 ∧ i + s < n)
  ∧ has_skip i 0 n = false
  ∧ has_skip i 1 n = (i + 1 <? n).
Proof.
  split; [apply has_skip_true|]. split; [done|].
  unfold has_skip. cbn [Nat.eqb]. rewrite Nat.mod_1_r. cbn [Nat.eqb andb].
  by destruct (i + 1 <? n).
Qed.

(** C10. For all input lists (ascending or not) and all strides, the merge
    loops of [perform_and_query] and [perform_and_not_query] run to
    completion without an [IndexError]: every subscript they evaluate,
    the look-ahead [l[j + skip]] included, is within bounds, since the
    look-ahead is read only after [has_skip] has checked
    [j + skip < len(l)].  This holds for the fuel the merges use and for
    any larger one. *)
Theorem merge_loops_total dictionary postings_fo l1 s1 l2 s2 extra :
  (∃ r, and_loop l1 s1 l2 s2 (merge_fuel l1 l2 + extra) 0 0 [] = Ret r)
  ∧ (∃ r, and_not_loop l1 l2 s2 (merge_fuel l1 l2 + extra) 0 0 [] = Ret r)
  ∧ (∃ q, perform_and_query dictionary postings_fo
            (Res (mkQueryResult l1 s1)) (Res (mkQueryResult l2 s2)) = Ret q)
  ∧ (∃ q, perform_and_not_query dictionary postings_fo
            (Res (mkQueryResult l1 s1)) (Res (mkQueryResult l2 s2)) = Ret q).
Proof.
  split; [apply and_loop_total; unfold merge_fuel; lia|].
  split; [apply and_not_loop_total; unfold merge_fuel; lia|].
  unfold perform_and_query, perform_and_not_query.
  cbn [get_query_result mbind res_bind doc_Ids skip_len].
  unfold and_merge, and_not_merge. split.
  - destruct (and_loop_total l1 s1 l2 s2 (merge_fuel l1 l2) 0 0 []) as [r ->];
      [unfold merge_fuel; lia|]. by eexists.
  - destruct (and_not_loop_total l1 l2 s2 (merge_fuel l1 l2) 0 0 []) as [[i r] ->];
      [unfold merge_fuel; lia|]. by eexists.
Qed.

(** ** Skip strides *)

Lemma write_index_loop_entries postings_lists dictionary f offset word e :
  (write_index_loop postings_lists dictionary f offset).1 !! word = Some e →
  dictionary !! word = Some e
  ∨ ∃ l offset' size, (word, l) ∈ postings_lists
      ∧ e = (length l, offset', size, int_sqrt (length l)).
Proof.
  revert dictionary f offset.
  induction postings_lists as [|[w l] rest IH]; intros dictionary f offset He.
  { by left. }
  simpl in He. apply IH in He as [He|(l' & o' & sz & Hin & ->)].
  - rewrite lookup_insert in He. case_decide as Hw.
    + subst w. right. exists l. eexists _, _. split; [by left|]. by simplify_eq.
    + by left.
  - right. exists l', o', sz. split; [by right|done].
Qed.

(** C5 as stated fails for the union: when one operand is empty
    [perform_or_query] hands back the other operand with stride 0, here for
    a list of length 1, whose floor square root is 1. *)
Lemma or_stride_counterexample :
  perform_or_query ∅ "" (Res (mkQueryResult [1%Z] 1)) (Res (mkQueryResult [] 0))
  = Ret (mkQueryResult [1%Z] 0)
  ∧ ¬ is_floor_sqrt 0 (length [1%Z]).
Proof. split; [reflexivity|]. unfold is_floor_sqrt. simpl. lia. Qed.

(** C5, amended.  Every dictionary entry written by [write_index_to_disk]
    records [skip_len = floor(sqrt(num_docs))], [num_docs] being the length
    of that term's postings list.  The results of [perform_and_query] and
    [perform_and_not_query] carry the floor square root of their own
    length, and so does the result of [perform_or_query] when both operands
    are non-empty; when either operand is empty, [perform_or_query] returns
    the other operand's list with stride 0. *)
Theorem skip_stride_floor_sqrt dictionary postings_fo postings_lists o1 o2 q1 q2 :
  get_query_result dictionary postings_fo o1 = Ret q1 →
  get_query_result dictionary postings_fo o2 = Ret q2 →
  (∀ word num_docs offset size skip,
     (write_index_to_disk postings_lists).1 !! word
       = Some (num_docs, offset, size, skip) →
     is_floor_sqrt skip num_docs
     ∧ ∃ l, (word, l) ∈ postings_lists ∧ num_docs = length l)
  ∧ (∃ q, perform_and_query dictionary postings_fo o1 o2 = Ret q
          ∧ is_floor_sqrt (skip_len q) (length (doc_Ids q)))
  ∧ (∃ q, perform_and_not_query dictionary postings_fo o1 o2 = Ret q
          ∧ is_floor_sqrt (skip_len q) (length (doc_Ids q)))
  ∧ (∃ q, perform_or_query dictionary postings_fo o1 o2 = Ret q
          ∧ if (length (doc_Ids q1) =? 0) || (length (doc_Ids q2) =? 0)
            then skip_len q = 0
                 ∧ doc_Ids q = (if 0 <? length (doc_Ids q1) then doc_Ids q1
                                else doc_Ids q2)
            else is_floor_sqrt (skip_len q) (length (doc_Ids q))).
Proof.
  intros Hq1 Hq2. split; [|split; [|split]].
  - intros word num_docs offset size skip He.
    apply write_index_loop_entries in He as [He|(l & o' & sz & Hin & He)].
    { by rewrite lookup_empty in He. }
    simplify_eq. split; [apply int_sqrt_spec | by exists l].
  - unfold perform_and_query. rewrite Hq1, Hq2. cbn [mbind res_bind].
    unfold and_merge.
    destruct (and_loop_total (doc_Ids q1) (skip_len q1) (doc_Ids q2) (skip_len q2)
                (merge_fuel (doc_Ids q1) (doc_Ids q2)) 0 0 []) as [r ->];
      [unfold merge_fuel; lia|].
    eexists. split; [done|]. apply int_sqrt_spec.
  - unfold perform_and_not_query. rewrite Hq1, Hq2. cbn [mbind res_bind].
    unfold and_not_merge.
    destruct (and_not_loop_total (doc_Ids q1) (doc_Ids q2) (skip_len q2)
                (merge_fuel (doc_Ids q1) (doc_Ids q2)) 0 0 []) as [[i r] ->];
      [unfold merge_fuel; lia|].
    eexists. split; [done|]. apply int_sqrt_spec.
  - unfold perform_or_query. rewrite Hq1, Hq2. cbn [mbind res_bind].
    rewrite or_merge_linear. eexists. split; [done|]. cbn [skip_len doc_Ids].
    destruct (doc_Ids q1) as [|a l1]; [by rewrite linear_or_nil_l|].
    destruct (doc_Ids q2) as [|b l2]; [done|].
    apply int_sqrt_spec.
Qed.

Lemma skip_stride_floor_sqrt_witness :
  is_floor_sqrt 2 (length [1; 2; 4; 7; 9]%Z)
  ∧ ∃ q, perform_or_query ∅ "" (Res (mkQueryResult [1; 2; 4]%Z 1))
           (Res (mkQueryResult [2; 7; 9]%Z 1)) = Ret q
         ∧ is_floor_sqrt (skip_len q) (length (doc_Ids q)).
Proof.
  destruct (skip_stride_floor_sqrt ∅ "" [("a", [1; 2; 4; 7; 9]%Z)]
              (Res (mkQueryResult [1; 2; 4]%Z 1)) (Res (mkQueryResult [2; 7; 9]%Z 1))
              _ _ eq_refl eq_refl) as (Hstored & _ & _ & Hor).
  split; [|exact Hor].
  exact (proj1 (Hstored "a" 5 0 10 2 eq_refl)).
Defined.

(** * The claims about the query parser *)

Lemma pop_while_ext (p q : string → bool) operator_stack output_queue :
  (∀ top, p top = q top) →
  pop_while p operator_stack output_queue = pop_while q operator_stack output_queue.
Proof.
  intros Hpq. revert output_queue.
  induction operator_stack as [|top rest IH]; intros output_queue; [done|].
  simpl. rewrite Hpq. destruct (q top); [apply IH | done].
Qed.

Lemma pop_while_all operator_stack output_queue :
  pop_while (λ _, true) operator_stack output_queue
  = ([], output_queue ++ operator_stack).
Proof.
  revert output_queue.
  induction operator_stack as [|top rest IH]; intros output_queue; simpl.
  - by rewrite app_nil_r.
  - by rewrite IH, <-app_assoc.
Qed.

Lemma must_pop_and top : must_pop false "AND" top = String.eqb top "NOT".
Proof.
  unfold must_pop, precedence. cbn [String.eqb Ascii.eqb Bool.eqb].
  destruct (String.eqb top "NOT") eqn:Hn; [done|].
  destruct (String.eqb top "AND") eqn:Ha; [done|].
  by destruct (String.eqb top "OR").
Qed.

Lemma must_pop_or top :
  must_pop false "OR" top = String.eqb top "NOT" || String.eqb top "AND".
Proof.
  unfold must_pop, precedence. cbn [String.eqb Ascii.eqb Bool.eqb].
  destruct (String.eqb top "NOT") eqn:Hn; [done|].
  destruct (String.eqb top "AND") eqn:Ha; [done|].
  by destruct (String.eqb top "OR").
Qed.

Lemma shunting_yard_step_strict normalize token output_queue operator_stack :
  shunting_yard_step normalize token output_queue operator_stack
  = precedence_step normalize false token output_queue operator_stack.
Proof.
  unfold shunting_yard_step, precedence_step.
  destruct (String.eqb token "("); [done|].
  destruct (String.eqb token ")"); [done|].
  destruct (String.eqb_spec token "NOT") as [->|Hnot]; [done|].
  destruct (String.eqb_spec token "AND") as [->|Hand].
  { cbn [precedence String.eqb Ascii.eqb Bool.eqb].
    by rewrite (pop_while_ext _ _ _ _ must_pop_and). }
  destruct (String.eqb_spec token "OR") as [->|Hor].
  { cbn [precedence String.eqb Ascii.eqb Bool.eqb].
    by rewrite (pop_while_ext _ _ _ _ must_pop_or). }
  unfold precedence.
  destruct (String.eqb_spec token "NOT"); [done|].
  destruct (String.eqb_spec token "AND"); [done|].
  by destruct (String.eqb_spec token "OR").
Qed.

(** C7 as stated fails: operators of equal precedence are not popped.  On
    [a AND b AND c] the second [AND] leaves the pending [AND] on the stack,
    so the output is [a b c AND AND], where popping equal-or-higher
    precedence gives [a b AND c AND]; likewise for [OR]. *)
Lemma equal_precedence_not_popped_counterexample :
  shunting_yard_loop id ["a"; "AND"; "b"; "AND"; "c"] [] []
  = Ret ["a"; "b"; "c"; "AND"; "AND"]
  ∧ precedence_loop id true ["a"; "AND"; "b"; "AND"; "c"] [] []
    = Ret ["a"; "b"; "AND"; "c"; "AND"]
  ∧ shunting_yard_loop id ["a"; "OR"; "b"; "OR"; "c"] [] []
    = Ret ["a"; "b"; "c"; "OR"; "OR"]
  ∧ precedence_loop id true ["a"; "OR"; "b"; "OR"; "c"] [] []
    = Ret ["a"; "b"; "OR"; "c"; "OR"].
Proof. repeat split; reflexivity. Qed.

(** C7, amended.  [shunting_yard] is the operator-precedence algorithm with
    precedence [NOT > AND > OR] in which an operator pops the operators of
    strictly higher precedence before it is pushed ([AND] pops the pending
    [NOT]s, [OR] the pending [NOT]s and [AND]s, [NOT] nothing); on [')'] it
    pops to the output until the matching ['('], which is discarded; at the
    end of the stream the operator stack is flushed in LIFO order. *)
Theorem shunting_yard_strict_precedence normalize tokens output_queue operator_stack :
  shunting_yard_loop normalize tokens output_queue operator_stack
  = precedence_loop normalize false tokens output_queue operator_stack.
Proof.
  revert output_queue operator_stack.
  induction tokens as [|token tokens IH]; intros output_queue operator_stack.
  { simpl. by rewrite pop_while_all. }
  simpl. rewrite shunting_yard_step_strict.
  destruct (precedence_step normalize false token output_queue operator_stack)
    as [[out ops]| |]; [apply IH|done..].
Qed.

(** * The claims about the query evaluator *)

(** C6: the code departs from the claim.  On [NOT NOT] both tokens are
    consumed, but the shared [stack.append(query_res)] at the end of the
    loop body still runs, with the value [query_res] kept from the previous
    iteration: the operand stack grows by a stale copy instead of being left
    unchanged.  For the postfix form of [b AND NOT NOT a] the evaluator then
    intersects [a] with itself and returns the postings of [a], [1 2],
    where [b AND a] is [1]. *)
Theorem double_not_pushes_stale_result :
  (∀ dictionary postings_fo stack q,
     eval_loop dictionary postings_fo ["NOT"; "NOT"] stack (Some q)
     = Ret (q :: stack))
  ∧ shunting_yard blank_tokenize id "b AND NOT NOT a"
    = Ret ["b"; "a"; "NOT"; "NOT"; "AND"]
  ∧ perform_search_query example_dictionary example_postings_file
      ["b"; "a"; "NOT"; "NOT"; "AND"] = Ret [1; 2]%Z
  ∧ perform_search_query example_dictionary example_postings_file
      ["b"; "a"; "AND"] = Ret [1]%Z.
Proof. repeat split; vm_compute; reflexivity. Qed.

(** ** Parentheses on the operator stack *)

Lemma pop_while_open_parens p operator_stack output_queue :
  (∀ t, p t = true → t ≠ "("%string) →
  open_parens (pop_while p operator_stack output_queue).1 = open_parens operator_stack.
Proof.
  intros Hp. revert output_queue.
  induction operator_stack as [|top rest IH]; intros output_queue; [done|].
  cbn [pop_while]. destruct (p top) eqn:Htop; [|done].
  rewrite IH. unfold open_parens. by rewrite filter_cons_False by (by apply Hp).
Qed.

Lemma pop_to_paren operator_stack output_queue :
  match (pop_while (λ top, negb (String.eqb top "(")) operator_stack output_queue).1 with
  | [] => open_parens operator_stack = 0
  | top :: rest => open_parens operator_stack = S (open_parens rest)
  end.
Proof.
  revert output_queue.
  induction operator_stack as [|top rest IH]; intros output_queue; [done|].
  cbn [pop_while]. destruct (String.eqb_spec top "(") as [->|Hne]; cbn [negb fst].
  - unfold open_parens. by rewrite filter_cons_True.
  - specialize (IH (output_queue ++ [top])).
    unfold open_parens in *. by rewrite filter_cons_False.
Qed.

Lemma shunting_yard_step_depth normalize token output_queue operator_stack :
  match shunting_yard_step normalize token output_queue operator_stack with
  | Ret (_, operator_stack') =>
      paren_depth [token] (open_parens operator_stack)
      = Some (open_parens operator_stack')
  | Raise e => e = IndexError ∧ paren_depth [token] (open_parens operator_stack) = None
  | OutOfFuel => False
  end.
Proof.
  unfold shunting_yard_step. cbn [paren_depth].
  destruct (String.eqb_spec token "(") as [->|Hl].
  { unfold open_parens. by rewrite filter_cons_True. }
  destruct (String.eqb_spec token ")") as [->|Hr].
  { pose proof (pop_to_paren operator_stack output_queue) as Hpop.
    destruct (pop_while _ operator_stack output_queue) as [[|top ops] out];
      cbn [fst] in Hpop; rewrite Hpop; by cbn. }
  destruct (String.eqb token "NOT").
  { unfold open_parens. by rewrite filter_cons_False. }
  destruct (String.eqb_spec token "AND") as [->|Ha].
  { pose proof (pop_while_open_parens (λ top, String.eqb top "NOT")
                  operator_stack output_queue) as Hpop.
    destruct (pop_while _ operator_stack output_queue) as [ops out].
    cbn [fst] in Hpop. unfold open_parens in *.
    rewrite filter_cons_False by done. rewrite Hpop; [done|].
    by intros t ->%String.eqb_eq. }
  destruct (String.eqb_spec token "OR") as [->|Ho]; [|done].
  pose proof (pop_while_open_parens
                (λ top, String.eqb top "NOT" || String.eqb top "AND")
                operator_stack output_queue) as Hpop.
  destruct (pop_while _ operator_stack output_queue) as [ops out].
  cbn [fst] in Hpop. unfold open_parens in *.
  rewrite filter_cons_False by done. rewrite Hpop; [done|].
  by intros t [->%String.eqb_eq | ->%String.eqb_eq]%orb_prop.
Qed.

Lemma paren_depth_cons token tokens depth :
  paren_depth (token :: tokens) depth
  = match paren_depth [token] depth with
    | Some depth' => paren_depth tokens depth'
    | None => None
    end.
Proof.
  cbn [paren_depth]. destruct (String.eqb token "("); [done|].
  destruct (String.eqb token ")"); [by destruct depth | done].
Qed.

Lemma shunting_yard_loop_outcome normalize tokens output_queue operator_stack :
  match shunting_yard_loop normalize tokens output_queue operator_stack with
  | Ret _ => is_Some (paren_depth tokens (open_parens operator_stack))
  | Raise e => e = IndexError ∧ paren_depth tokens (open_parens operator_stack) = None
  | OutOfFuel => False
  end.
Proof.
  revert output_queue operator_stack.
  induction tokens as [|token tokens IH]; intros output_queue operator_stack.
  { by cbn. }
  cbn [shunting_yard_loop]. rewrite paren_depth_cons.
  pose proof (shunting_yard_step_depth normalize token output_queue operator_stack)
    as Hstep.
  destruct (shunting_yard_step normalize token output_queue operator_stack)
    as [[out ops]|e|]; cbn [mbind res_bind].
  - rewrite Hstep. apply IH.
  - destruct Hstep as [-> ->]. done.
  - done.
Qed.



(** ** A query line that fails *)






(** * The postings store: writing and reading back *)

(** ** Strings *)

Lemma append_nil_l (s : string) : "" +:+ s = s.
Proof. reflexivity. Qed.

Lemma append_cons c (s1 s2 : string) : String c s1 +:+ s2 = String c (s1 +:+ s2).
Proof. reflexivity. Qed.

(** stdpp keeps [+:+] from being unfolded by [simpl]. *)
Ltac simpl_append := repeat (rewrite append_nil_l || rewrite append_cons).

Lemma append_assoc (s1 s2 s3 : string) : (s1 +:+ s2) +:+ s3 = s1 +:+ (s2 +:+ s3).
Proof.
  induction s1 as [|c s1 IH]; [done|]. by rewrite !append_cons, IH.
Qed.

Lemma append_nil_r (s : string) : s +:+ "" = s.
Proof. induction s as [|c s IH]; [done|]. by rewrite append_cons, IH. Qed.

Lemma length_append (s1 s2 : string) :
  String.length (s1 +:+ s2) = String.length s1 + String.length s2.
Proof.
  induction s1 as [|c s1 IH]; [done|]. rewrite append_cons. simpl. by rewrite IH.
Qed.

Lemma substring_prefix (s post : string) :
  substring 0 (String.length s) (s +:+ post) = s.
Proof.
  induction s as [|c s IH]; [by destruct post|].
  rewrite append_cons. simpl. by rewrite IH.
Qed.

Lemma substring_middle (pre s post : string) :
  substring (String.length pre) (String.length s) (pre +:+ s +:+ post) = s.
Proof.
  induction pre as [|c pre IH].
  { rewrite append_nil_l. apply substring_prefix. }
  rewrite append_cons. simpl. apply IH.
Qed.

Lemma drop_last_snoc (s : string) c : Py.drop_last (s +:+ String c "") = s.
Proof.
  induction s as [|c' s IH]; [done|].
  rewrite append_cons. cbn [Py.drop_last]. rewrite IH.
  destruct s; [done|]. by rewrite append_cons.
Qed.

Lemma all_chars_app p (s1 s2 : string) :
  all_chars p (s1 +:+ s2) = all_chars p s1 && all_chars p s2.
Proof.
  induction s1 as [|c s1 IH]; [done|].
  rewrite append_cons. simpl. by rewrite IH, andb_assoc.
Qed.

Lemma all_chars_impl (p q : ascii → bool) s :
  (∀ c, p c = true → q c = true) → all_chars p s = true → all_chars q s = true.
Proof.
  intros Hpq. induction s as [|c s IH]; simpl; [done|].
  intros [Hc Hs]%andb_prop. by rewrite (Hpq c Hc), IH.
Qed.

(** ** [str] and [int] *)

Lemma digit_char_is_digit d :
  (0 ≤ d < 10)%Z → Py.is_digit (Py.digit_char d) = true.
Proof.
  intros Hd. assert (d ∈ [0; 1; 2; 3; 4; 5; 6; 7; 8; 9]%Z) as Hin.
  { assert (d = 0 ∨ d = 1 ∨ d = 2 ∨ d = 3 ∨ d = 4 ∨ d = 5 ∨ d = 6 ∨ d = 7
            ∨ d = 8 ∨ d = 9)%Z by lia.
    set_unfold. tauto. }
  set_unfold. by destruct Hin as [->|[->|[->|[->|[->|[->|[->|[->|[->|[->|[]]]]]]]]]]].
Qed.

Lemma digit_val_char d : (0 ≤ d < 10)%Z → Py.digit_val (Py.digit_char d) = d.
Proof.
  intros Hd. unfold Py.digit_val, Py.digit_char.
  rewrite nat_ascii_embedding by lia. lia.
Qed.

Lemma digits_of_all_digits fuel n :
  (0 ≤ n)%Z → all_chars Py.is_digit (Py.digits_of fuel n) = true.
Proof.
  revert n. induction fuel as [|fuel IH]; intros n Hn; [done|].
  cbn [Py.digits_of]. rewrite all_chars_app. cbn [all_chars].
  rewrite digit_char_is_digit by (apply Z.mod_pos_bound; lia).
  destruct (n <? 10)%Z; [done|]. rewrite IH; [done|].
  apply Z.div_pos; lia.
Qed.

Lemma digits_acc_digits_of fuel n rest b :
  (0 ≤ n < 2 ^ Z.of_nat (S fuel))%Z →
  Py.digits_acc (Py.digits_of (S fuel) n +:+ rest) 0 b = Py.digits_acc rest n true.
Proof.
  revert n rest b. induction fuel as [|fuel IH]; intros n rest b Hn.
  - assert (n < 10)%Z as Hlt by (change (2 ^ Z.of_nat 1)%Z with 2%Z in Hn; lia).
    cbn [Py.digits_of]. rewrite (proj2 (Z.ltb_lt n 10) Hlt).
    simpl_append. cbn [Py.digits_acc].
    rewrite digit_char_is_digit, digit_val_char by (rewrite Z.mod_small; lia).
    rewrite Z.mod_small by lia. f_equal.
  - change (Py.digits_of (S (S fuel)) n)
      with ((if (n <? 10)%Z then ""%string else Py.digits_of (S fuel) (n / 10)%Z)
            +:+ String (Py.digit_char (n mod 10)%Z) "").
    assert (0 ≤ n mod 10 < 10)%Z as Hmod by (apply Z.mod_pos_bound; lia).
    destruct (Z.ltb_spec n 10) as [Hlt|Hge].
    + simpl_append. cbn [Py.digits_acc].
      rewrite digit_char_is_digit, digit_val_char by done.
      rewrite Z.mod_small by lia. f_equal.
    + rewrite append_assoc. rewrite IH.
      * simpl_append. cbn [Py.digits_acc].
        rewrite digit_char_is_digit, digit_val_char by done.
        f_equal. pose proof (Z.div_mod n 10). lia.
      * split; [apply Z.div_pos; lia|].
        rewrite Nat2Z.inj_succ, Z.pow_succ_r in Hn by lia.
        apply Z.div_lt_upper_bound; lia.
Qed.

Lemma log2_fuel n : (0 ≤ n)%Z → (n < 2 ^ Z.of_nat (S (Z.to_nat (Z.log2 n))))%Z.
Proof.
  intros Hn. rewrite Nat2Z.inj_succ, Z2Nat.id by apply Z.log2_nonneg.
  destruct (decide (n = 0%Z)) as [->|]; [by vm_compute|].
  apply Z.log2_spec. lia.
Qed.

Lemma strip_no_space s :
  all_chars (λ c, negb (Py.is_space c)) s = true →
  Py.lstrip (Py.rstrip s) = s.
Proof.
  intros Hs. assert (Py.rstrip s = s) as ->.
  { induction s as [|c s IH]; [done|]. simpl in Hs.
    apply andb_prop in Hs as [Hc Hs]. cbn [Py.rstrip]. rewrite IH by done.
    destruct s; [|done]. by destruct (Py.is_space c). }
  destruct s as [|c s]; [done|]. simpl in Hs. apply andb_prop in Hs as [Hc _].
  cbn [Py.lstrip]. by destruct (Py.is_space c).
Qed.

Lemma int_char_not_space c : is_int_char c = true → negb (Py.is_space c) = true.
Proof.
  unfold is_int_char, Py.is_digit, Py.is_space. cbv zeta.
  intros [Hdigit | ->%Ascii.eqb_eq]%orb_prop; [|reflexivity].
  apply andb_prop in Hdigit as [Hlo%Nat.leb_le Hhi%Nat.leb_le].
  revert Hlo Hhi. generalize (nat_of_ascii c). intros n Hlo Hhi.
  destruct (Nat.leb_spec n 13), (Nat.eqb_spec n 32), (Nat.eqb_spec n 133),
    (Nat.eqb_spec n 160); rewrite ?andb_false_r; cbn [orb negb];
    try reflexivity; lia.
Qed.

Lemma str_int_chars n : all_chars is_int_char (Py.str n) = true.
Proof.
  unfold Py.str. destruct (Z.ltb_spec n 0).
  - cbn [all_chars]. apply andb_true_intro. split; [done|].
    eapply all_chars_impl; [|apply digits_of_all_digits; lia].
    intros c Hc. unfold is_int_char. by rewrite Hc.
  - eapply all_chars_impl; [|by apply digits_of_all_digits].
    intros c Hc. unfold is_int_char. by rewrite Hc.
Qed.

Lemma int_literal_digits s :
  all_chars Py.is_digit s = true → Py.int_literal s = Py.digits_acc s 0 false.
Proof.
  destruct s as [|c s]; [done|]. cbn [all_chars]. intros [Hc _]%andb_prop.
  revert Hc. destruct c as [[] [] [] [] [] [] [] []]; vm_compute; congruence.
Qed.

(** [int(str(n)) == n] *)
Lemma int_str n : Py.int (Py.str n) = Ret n.
Proof.
  unfold Py.int. rewrite strip_no_space.
  2:{ eapply all_chars_impl; [apply int_char_not_space | apply str_int_chars]. }
  unfold Py.str. destruct (Z.ltb_spec n 0).
  - pose proof (digits_acc_digits_of (Z.to_nat (Z.log2 (- n))) (- n) "" false) as Hd.
    rewrite append_nil_r in Hd. cbn [Py.int_literal].
    rewrite Hd by (split; [lia | apply log2_fuel; lia]).
    cbn. f_equal. lia.
  - rewrite int_literal_digits by (by apply digits_of_all_digits).
    pose proof (digits_acc_digits_of (Z.to_nat (Z.log2 n)) n "" false) as Hd.
    rewrite append_nil_r in Hd. by rewrite Hd by (split; [lia | by apply log2_fuel]).
Qed.

(** ** [split] and [join] *)

Lemma split_no_sep sep s :
  all_chars (λ c, negb (Ascii.eqb c sep)) s = true → Py.split sep s = [s].
Proof.
  induction s as [|c s IH]; [done|]. cbn [all_chars Py.split].
  intros [Hc Hs]%andb_prop. apply negb_true_iff in Hc. by rewrite Hc, IH.
Qed.

Lemma split_app sep s rest :
  all_chars (λ c, negb (Ascii.eqb c sep)) s = true →
  Py.split sep (s +:+ String sep rest) = s :: Py.split sep rest.
Proof.
  induction s as [|c s IH].
  - intros _. rewrite append_nil_l. cbn [Py.split]. by rewrite Ascii.eqb_refl.
  - cbn [all_chars]. intros [Hc Hs]%andb_prop. apply negb_true_iff in Hc.
    rewrite append_cons. cbn [Py.split]. by rewrite Hc, IH.
Qed.

Lemma split_join sep strs :
  strs ≠ [] →
  Forall (λ s, all_chars (λ c, negb (Ascii.eqb c sep)) s = true) strs →
  Py.split sep (Py.join (String sep "") strs) = strs.
Proof.
  induction strs as [|x strs IH]; [done|]. intros _ [Hx Hstrs]%Forall_cons.
  destruct strs as [|y strs]; [by apply split_no_sep|].
  change (Py.join (String sep "") (x :: y :: strs))
    with (x +:+ String sep "" +:+ Py.join (String sep "") (y :: strs)).
  rewrite append_cons, append_nil_l, split_app by done.
  by rewrite IH.
Qed.

Lemma int_char_not_comma c :
  is_int_char c = true → negb (Ascii.eqb c ",") = true.
Proof.
  intros Hc. apply negb_true_iff, Ascii.eqb_neq. intros ->. by vm_compute in Hc.
Qed.

Lemma map_res_int_str l : map_res Py.int (Py.str <$> l) = Ret l.
Proof.
  induction l as [|n l IH]; [done|].
  cbn [fmap list_fmap map_res]. rewrite int_str. cbn [mbind res_bind].
  fold (fmap (M:=list) Py.str l). by rewrite IH.
Qed.

(** Round trip for a non-empty postings list: written after any contents
    [pre] of the postings file and followed by anything, the list is read
    back from the recorded offset and size. *)
Lemma postings_round_trip_nonempty postings_list pre post dictionary word
    num_docs skip :
  postings_list ≠ [] →
  dictionary !! word
  = Some (num_docs, String.length pre, (write_postings_list postings_list pre).2, skip) →
  read_postings_list_from_disk dictionary
    ((write_postings_list postings_list pre).1 +:+ post) word
  = Ret postings_list.
Proof.
  intros Hne Hword. unfold read_postings_list_from_disk. rewrite Hword.
  cbn [write_postings_list fst snd]. rewrite append_assoc, substring_middle.
  rewrite drop_last_snoc, split_join.
  - apply map_res_int_str.
  - by destruct postings_list.
  - apply Forall_fmap, Forall_forall. intros n _. cbn.
    eapply all_chars_impl; [apply int_char_not_comma | apply str_int_chars].
Qed.

(** C4: the code departs from the claim for the list of length 0.  The
    empty list is written as a single blank; reading that range back strips
    the blank, splits the empty string into [['']] and fails on [int('')]
    with a [ValueError].  The index of an empty directory stores exactly
    such a list under the sentinel, so a [NOT] query against it ends the
    run.  Lists of length 1 and more do read back
    ([postings_round_trip_nonempty]). *)
Theorem empty_postings_list_not_read_back :
  write_postings_list [] "" = (" "%string, 1)
  ∧ read_postings_list_from_disk {[ ALL_DOC_IDS := (0, 0, 1, 0) ]} " " ALL_DOC_IDS
    = Raise ValueError
  ∧ create_postings_lists one_sentence blank_tokenize id ∅ = Ret [(ALL_DOC_IDS, [])]
  ∧ write_index_to_disk [(ALL_DOC_IDS, [])]
    = ({[ ALL_DOC_IDS := (0, 0, 1, 0) ]}, " "%string)
  ∧ run_search blank_tokenize id {[ ALL_DOC_IDS := (0, 0, 1, 0) ]} " " ["NOT a"]
    = ([], Raise ValueError).
Proof. repeat split; vm_compute; reflexivity. Qed.

(** * The index builder *)

(** ** The ordered dictionary *)

Lemma dict_get_set_eq {V} (d : Dict.t V) k v : Dict.get (Dict.set d k v) k = Some v.
Proof.
  induction d as [|[k' v'] d IH]; simpl.
  - by rewrite String.eqb_refl.
  - destruct (String.eqb_spec k' k) as [->|Hne]; simpl.
    + by rewrite String.eqb_refl.
    + by destruct (String.eqb_spec k' k).
Qed.

Lemma dict_get_set_ne {V} (d : Dict.t V) k k' v :
  k ≠ k' → Dict.get (Dict.set d k v) k' = Dict.get d k'.
Proof.
  intros Hne. induction d as [|[k0 v0] d IH]; simpl.
  - by destruct (String.eqb_spec k k').
  - destruct (String.eqb_spec k0 k) as [->|Hk]; simpl.
    + by destruct (String.eqb_spec k k').
    + by rewrite IH.
Qed.

(** ** One token *)

Lemma add_posting_other docID postings_lists w k :
  k ≠ w →
  Dict.get (add_posting docID postings_lists w) k = Dict.get postings_lists k.
Proof.
  intros Hk. unfold add_posting.
  destruct (negb (Dict.mem postings_lists w)).
  - destruct (_ || _); rewrite ?dict_get_set_ne by done; done.
  - destruct (_ || _); rewrite ?dict_get_set_ne by done; done.
Qed.

Lemma add_posting_same docID postings_lists w :
  default [] (Dict.get (add_posting docID postings_lists w) w)
  = let old := default [] (Dict.get postings_lists w) in
    if (length old =? 0) || negb (bool_decide (last old = Some docID))
    then old ++ [docID] else old.
Proof.
  unfold add_posting, Dict.mem.
  destruct (Dict.get postings_lists w) as [old|] eqn:Hget; cbn [negb].
  - rewrite !Hget. simpl.
    destruct (_ || _); by rewrite ?dict_get_set_eq, ?Hget.
  - rewrite !dict_get_set_eq. simpl. by rewrite dict_get_set_eq.
Qed.

Section IndexProof.

Variable tokens_of : Z → list string.

Lemma add_posting_step postings_lists done docID seen w :
  (∀ x, x ∈ done → (x < docID)%Z) →
  doc_state tokens_of postings_lists done docID seen →
  doc_state tokens_of (add_posting docID postings_lists w) done docID (seen ++ [w]).
Proof.
  intros Hdone [Hall Hterms]. split.
  - destruct (decide (w = ALL_DOC_IDS)) as [->|Hw].
    + unfold add_posting, Dict.mem. rewrite !Hall. simpl. rewrite !Hall. simpl.
      rewrite last_snoc, bool_decide_eq_true_2, length_app by done.
      replace (length done + length [docID] =? 0) with false
        by (symmetry; apply Nat.eqb_neq; simpl; lia).
      done.
    + by rewrite add_posting_other.
  - intros term Hterm. destruct (decide (term = w)) as [->|Hne].
    + rewrite add_posting_same, (Hterms w Hterm). cbv zeta.
      rewrite (decide_True (P := w ∈ seen ++ [w])) by (apply elem_of_app; right; by left).
      destruct (decide (w ∈ seen)) as [Hin|Hnin].
      * rewrite last_snoc, bool_decide_eq_true_2, length_app by done.
        replace (_ =? 0) with false by (symmetry; apply Nat.eqb_neq; simpl; lia).
        done.
      * rewrite app_nil_r.
        destruct (filter (λ n, w ∈ tokens_of n) done) as [|y ys] eqn:Hf using rev_ind;
          [done|]. clear IHys.
        rewrite last_snoc, length_app. cbn [length].
        replace (_ =? 0) with false by (symmetry; apply Nat.eqb_neq; lia).
        rewrite bool_decide_eq_false_2; [done|].
        intros [= ->]. assert (docID ∈ done) as Hin.
        { eapply (list_elem_of_filter (λ n, w ∈ tokens_of n)).
          rewrite Hf. apply elem_of_app. right. by left. }
        specialize (Hdone _ Hin). lia.
    + rewrite add_posting_other, (Hterms term Hterm) by done.
      destruct (decide (term ∈ seen)) as [Hin|Hnin].
      * by rewrite decide_True by (apply elem_of_app; by left).
      * rewrite decide_False; [done|].
        intros [?|?%list_elem_of_singleton]%elem_of_app; done.
Qed.

Lemma add_postings_state tokens postings_lists done docID seen :
  (∀ x, x ∈ done → (x < docID)%Z) →
  doc_state tokens_of postings_lists done docID seen →
  doc_state tokens_of (foldl (add_posting docID) postings_lists tokens)
    done docID (seen ++ tokens).
Proof.
  intros Hdone. revert postings_lists seen.
  induction tokens as [|w tokens IH]; intros postings_lists seen Hst.
  { by rewrite app_nil_r. }
  cbn [foldl]. rewrite (assoc_L (++) seen [w] tokens : seen ++ w :: tokens = _).
  apply IH. by apply add_posting_step.
Qed.

End IndexProof.

(** ** One document, then all of them *)

Lemma foldl_foldl_bind {A B C} (f : A → B → A) (g : C → list B) a (l : list C) :
  foldl (λ a c, foldl f a (g c)) a l = foldl f a (l ≫= g).
Proof.
  revert a. induction l as [|c l IH]; intros a; [done|].
  cbn [foldl mbind list_bind]. by rewrite foldl_app, IH.
Qed.

Section IndexLoop.

Variables (sent_tokenize word_tokenize : string → list string)
          (normalize : string → string) (in_dir : gmap string dirent).

Abbreviation tokens := (tokens_of sent_tokenize word_tokenize normalize in_dir).

Lemma index_document_state postings_lists done docID :
  (∀ x, x ∈ done → (x < docID)%Z) →
  index_state tokens postings_lists done →
  index_state tokens
    (index_document sent_tokenize word_tokenize normalize in_dir postings_lists docID)
    (done ++ [docID]).
Proof.
  intros Hdone [Hall Hterms]. unfold index_document. rewrite Hall. simpl default.
  rewrite (foldl_foldl_bind (add_posting docID)
             (λ line, line_tokens sent_tokenize word_tokenize normalize
                        (line +:+ newline))).
  fold (doc_tokens sent_tokenize word_tokenize normalize
          (file_lines in_dir (Py.str docID))).
  fold (tokens docID).
  destruct (add_postings_state tokens (tokens docID)
              (Dict.set postings_lists ALL_DOC_IDS (done ++ [docID]))
              done docID [] Hdone) as [Hall' Hterms'].
  { split; [apply dict_get_set_eq|]. intros term Hterm.
    rewrite dict_get_set_ne, (Hterms term Hterm) by done.
    rewrite decide_False by apply not_elem_of_nil. by rewrite app_nil_r. }
  split; [done|]. intros term Hterm.
  rewrite (Hterms' term Hterm).
  rewrite filter_app, filter_cons, filter_nil. by f_equal.
Qed.

Lemma index_documents_state files postings_lists done :
  strictly_ascending (done ++ files) →
  index_state tokens postings_lists done →
  index_state tokens
    (foldl (index_document sent_tokenize word_tokenize normalize in_dir)
       postings_lists files)
    (done ++ files).
Proof.
  revert postings_lists done.
  induction files as [|docID files IH]; intros postings_lists done Hsorted Hst.
  { by rewrite app_nil_r. }
  cbn [foldl].
  assert (∀ x, x ∈ done → (x < docID)%Z) as Hlt.
  { intros x Hx.
    apply (StronglySorted_app_1_elem_of Z.lt done (docID :: files) x docID Hsorted);
      [done | by left]. }
  rewrite (assoc_L (++) done [docID] files : done ++ docID :: files = _) in *.
  apply IH; [done|]. by apply index_document_state.
Qed.

End IndexLoop.

(** ** The sorted document IDs *)

Lemma str_inj : Inj (=) (=) Py.str.
Proof.
  intros n m Hnm. pose proof (int_str n) as Hn. rewrite Hnm, int_str in Hn.
  by simplify_eq.
Qed.

Lemma map_res_int_canonical names :
  (∀ name, name ∈ names → ∃ n, name = Py.str n) →
  ∃ ids, map_res Py.int names = Ret ids ∧ names = Py.str <$> ids.
Proof.
  induction names as [|name names IH]; intros Hcanon.
  { by exists []. }
  destruct (Hcanon name) as [n ->]; [by left|].
  destruct IH as (ids & Hids & ->); [intros; apply Hcanon; by right|].
  exists (n :: ids). split; [|done].
  cbn [map_res]. rewrite int_str. cbn [mbind res_bind]. by rewrite Hids.
Qed.

Lemma sorted_le_NoDup_ascending l : Sorted Z.le l → NoDup l → strictly_ascending l.
Proof.
  intros Hs%(Sorted_StronglySorted Z.le). induction Hs as [|a l Hl IH Ha].
  { constructor. }
  intros [Hnotin Hnd]%NoDup_cons. apply strictly_ascending_cons; [by apply IH|].
  intros x Hx. rewrite Forall_forall in Ha. specialize (Ha x Hx).
  assert (a ≠ x) by (by intros ->). lia.
Qed.

Lemma length_filter_fmap {A B} (f : A → B) (P : B → Prop)
    `{!∀ y, Decision (P y)} (l : list A) :
  length (filter P (f <$> l)) = length (filter (λ x, P (f x)) l).
Proof.
  induction l as [|x l IH]; [done|].
  rewrite fmap_cons, !filter_cons. destruct (decide (P (f x))); simpl; by rewrite IH.
Qed.

(** * The claims about the index builder *)

(** C2 as stated fails: a file name that parses as an integer without
    being its canonical spelling ([02]) gives the document ID 2, and the
    builder then reads the file named [str(2)], which does not exist.  Both
    documents contain the term [a], yet its postings list is [[1]]. *)
Lemma padded_file_name_counterexample :
  Forall (λ name, ∃ n, Py.int name = Ret n) (documents padded_name_dir)
  ∧ create_postings_lists one_sentence blank_tokenize id padded_name_dir
    = Ret [(ALL_DOC_IDS, [1; 2]%Z); ("a", [1]%Z)]
  ∧ length (docs_containing one_sentence blank_tokenize id "a" padded_name_dir) = 2.
Proof.
  split; [|split; vm_compute; reflexivity].
  apply Forall_forall. intros name Hname. vm_compute in Hname.
  apply list_elem_of_In in Hname. simpl in Hname.
  destruct Hname as [<-|[<-|[]]]; eexists; vm_compute; reflexivity.
Qed.

(** The names of the example documents are canonical. *)
Ltac example_names :=
  apply Forall_forall; intros name Hname; vm_compute in Hname;
  apply list_elem_of_In in Hname; simpl in Hname;
  repeat (destruct Hname as [<-|Hname]; [vm_compute; reflexivity|]);
  destruct Hname.

(** C2, amended.  For every input directory in which the name of every
    regular file is the canonical decimal spelling of an integer
    ([str(int(name)) == name]: [7], not [07], [+7] or [7_0]), and for every
    term other than the sentinel, the postings list built by
    [create_postings_lists] (the empty list for a term that is no key of
    the dictionary) is strictly ascending (so free of duplicates), holds
    exactly the IDs of the documents that contain the term, and its length
    is the number of those documents: a term that occurs in a document has
    its list.  The sentinel list holds exactly the document IDs, in
    strictly ascending order. *)
Theorem index_postings_lists sent_tokenize word_tokenize normalize in_dir :
  Forall (λ name, Py.str <$> Py.int name = Ret name) (documents in_dir) →
  ∃ postings_lists all_docs,
    create_postings_lists sent_tokenize word_tokenize normalize in_dir
    = Ret postings_lists
    ∧ Dict.get postings_lists ALL_DOC_IDS = Some all_docs
    ∧ strictly_ascending all_docs
    ∧ (∀ n, n ∈ all_docs ↔ Py.str n ∈ documents in_dir)
    ∧ ∀ term,
        term ≠ ALL_DOC_IDS →
        strictly_ascending (default [] (Dict.get postings_lists term))
        ∧ (∀ n, n ∈ default [] (Dict.get postings_lists term) ↔
                Py.str n ∈ docs_containing sent_tokenize word_tokenize normalize
                             term in_dir)
        ∧ length (default [] (Dict.get postings_lists term))
          = length (docs_containing sent_tokenize word_tokenize normalize
                      term in_dir)
        ∧ (docs_containing sent_tokenize word_tokenize normalize term in_dir ≠ []
           → is_Some (Dict.get postings_lists term)).
Proof.
  intros Hcanon.
  destruct (map_res_int_canonical (documents in_dir)) as (ids & Hids & Hnames).
  { intros name Hname. rewrite Forall_forall in Hcanon.
    specialize (Hcanon name Hname).
    destruct (Py.int name) as [n| |]; [|done..]. exists n. by simplify_eq/=. }
  assert (NoDup ids) as Hnd.
  { apply (NoDup_fmap_1 Py.str). rewrite <-Hnames.
    apply NoDup_filter, NoDup_fst_map_to_list. }
  pose proof (merge_sort_Permutation Z.le ids) as Hperm.
  assert (strictly_ascending (merge_sort Z.le ids)) as Hsorted.
  { apply sorted_le_NoDup_ascending; [apply (Sorted_merge_sort Z.le)|].
    by rewrite Hperm. }
  assert (∀ n, n ∈ merge_sort Z.le ids ↔ Py.str n ∈ documents in_dir) as Hmem.
  { intros n. rewrite Hperm, Hnames, list_elem_of_fmap. split; [by eauto|].
    by intros (m & ->%str_inj & ?). }
  pose proof (index_documents_state sent_tokenize word_tokenize normalize in_dir
                (merge_sort Z.le ids) [(ALL_DOC_IDS, [])] [] Hsorted)
    as [Hall Hterms].
  { split; [done|]. intros term Hterm. cbn [Dict.get].
    by destruct (String.eqb_spec ALL_DOC_IDS term). }
  eexists _, (merge_sort Z.le ids). split.
  { unfold create_postings_lists, get_sorted_file_names.
    fold (documents in_dir). by rewrite Hids. }
  split; [done|]. split; [done|]. split; [done|].
  intros term Hterm.
  assert (length (default [] (Dict.get
                    (foldl (index_document sent_tokenize word_tokenize normalize in_dir)
                       [(ALL_DOC_IDS, [])] (merge_sort Z.le ids)) term))
          = length (docs_containing sent_tokenize word_tokenize normalize
                      term in_dir)) as Hlen.
  { rewrite (Hterms term Hterm). unfold docs_containing.
    rewrite Hnames, length_filter_fmap. by rewrite Hperm. }
  split; [rewrite (Hterms term Hterm); by apply filter_ascending|].
  split; [|split; [done|]].
  - intros n. rewrite (Hterms term Hterm). unfold docs_containing.
    rewrite !list_elem_of_filter, Hmem. done.
  - intros Hdocs. destruct (Dict.get _ term); [done|].
    exfalso. apply Hdocs. by apply nil_length_inv.
Qed.

Lemma index_postings_lists_witness :
  ∃ postings_lists all_docs,
    create_postings_lists one_sentence blank_tokenize id example_dir
    = Ret postings_lists
    ∧ Dict.get postings_lists ALL_DOC_IDS = Some all_docs
    ∧ strictly_ascending all_docs
    ∧ (∀ n, n ∈ all_docs ↔ Py.str n ∈ documents example_dir)
    ∧ ∀ term,
        term ≠ ALL_DOC_IDS →
        strictly_ascending (default [] (Dict.get postings_lists term))
        ∧ (∀ n, n ∈ default [] (Dict.get postings_lists term) ↔
                Py.str n ∈ docs_containing one_sentence blank_tokenize id
                             term example_dir)
        ∧ length (default [] (Dict.get postings_lists term))
          = length (docs_containing one_sentence blank_tokenize id term example_dir)
        ∧ (docs_containing one_sentence blank_tokenize id term example_dir ≠ []
           → is_Some (Dict.get postings_lists term)).
Proof.
  apply (index_postings_lists one_sentence blank_tokenize id example_dir).
  example_names.
Defined.

(** * Further properties of the code *)

(** ** The written index read back *)

Lemma dict_get_Some_elem {V} (d : Dict.t V) k v : Dict.get d k = Some v → (k, v) ∈ d.
Proof.
  induction d as [|[k' v'] d IH]; [done|]. cbn [Dict.get].
  destruct (String.eqb_spec k' k) as [->|Hne].
  - intros [= ->]. by left.
  - intros Hget. right. by apply IH.
Qed.

Lemma dict_get_None_keys {V} (d : Dict.t V) k : Dict.get d k = None → k ∉ d.*1.
Proof.
  induction d as [|[k' v'] d IH]; [intros _; apply not_elem_of_nil|].
  cbn [Dict.get]. destruct (String.eqb_spec k' k) as [->|Hne]; [done|].
  intros Hget. rewrite fmap_cons. cbn [fst].
  intros [->|Hin]%elem_of_cons; [done|]. by apply IH.
Qed.

Lemma write_index_loop_file postings_lists dictionary f offset :
  ∃ tail, (write_index_loop postings_lists dictionary f offset).2 = f +:+ tail.
Proof.
  revert dictionary f offset.
  induction postings_lists as [|[w l] rest IH]; intros dictionary f offset.
  { exists ""%string. cbn. by rewrite append_nil_r. }
  cbn [write_index_loop write_postings_list].
  destruct (IH (<[w:=(length l, offset,
                      String.length (Py.join "," (Py.str <$> l) +:+ " "),
                      int_sqrt (length l))]> dictionary)
              (f +:+ Py.join "," (Py.str <$> l) +:+ " ")
              (offset + String.length (Py.join "," (Py.str <$> l) +:+ " ")))
    as [tail ->].
  eexists. by rewrite append_assoc.
Qed.

Lemma write_index_loop_other postings_lists dictionary f offset word :
  word ∉ postings_lists.*1 →
  (write_index_loop postings_lists dictionary f offset).1 !! word = dictionary !! word.
Proof.
  revert dictionary f offset.
  induction postings_lists as [|[w l] rest IH]; intros dictionary f offset Hnot;
    [done|].
  cbn [write_index_loop write_postings_list]. rewrite fmap_cons in Hnot. cbn [fst] in Hnot.
  rewrite IH by (intros ?; apply Hnot; by right).
  apply lookup_insert_ne. intros ->. apply Hnot. by left.
Qed.

Lemma write_index_loop_read postings_lists dictionary f word l :
  NoDup postings_lists.*1 → (word, l) ∈ postings_lists → l ≠ [] →
  (∃ offset size,
     (write_index_loop postings_lists dictionary f (String.length f)).1 !! word
     = Some (length l, offset, size, int_sqrt (length l)))
  ∧ read_postings_list_from_disk
      (write_index_loop postings_lists dictionary f (String.length f)).1
      (write_index_loop postings_lists dictionary f (String.length f)).2 word
    = Ret l.
Proof.
  revert dictionary f.
  induction postings_lists as [|[w l0] rest IH]; intros dictionary f Hnd Hin Hne.
  { by apply elem_of_nil in Hin. }
  rewrite fmap_cons in Hnd. cbn [fst] in Hnd. apply NoDup_cons in Hnd as [Hw Hnd].
  cbn [write_index_loop write_postings_list]. rewrite <-length_append.
  apply elem_of_cons in Hin as [[= -> ->]|Hin]; [|by apply IH].
  pose proof (write_index_loop_other rest
                (<[w:=(length l0, String.length f,
                       String.length (Py.join "," (Py.str <$> l0) +:+ " "),
                       int_sqrt (length l0))]> dictionary)
                (f +:+ Py.join "," (Py.str <$> l0) +:+ " ")
                (String.length (f +:+ Py.join "," (Py.str <$> l0) +:+ " "))
                w Hw) as Hentry.
  rewrite lookup_insert_eq in Hentry.
  split; [by eauto|].
  destruct (write_index_loop_file rest
              (<[w:=(length l0, String.length f,
                     String.length (Py.join "," (Py.str <$> l0) +:+ " "),
                     int_sqrt (length l0))]> dictionary)
              (f +:+ Py.join "," (Py.str <$> l0) +:+ " ")
              (String.length (f +:+ Py.join "," (Py.str <$> l0) +:+ " ")))
    as [tail Hfile].
  rewrite Hfile.
  by apply (postings_round_trip_nonempty l0 f tail _ w (length l0) (int_sqrt (length l0))).
Qed.

(** X1. Every non-empty postings list of an index written by
    [write_index_to_disk] is read back by [read_postings_list_from_disk]
    from the offset and size recorded for its term, whatever was written
    before and after it. *)
Theorem index_round_trip postings_lists word l :
  NoDup postings_lists.*1 → Dict.get postings_lists word = Some l → l ≠ [] →
  read_postings_list_from_disk (write_index_to_disk postings_lists).1
    (write_index_to_disk postings_lists).2 word
  = Ret l.
Proof.
  intros Hnd Hget%dict_get_Some_elem Hne.
  by apply (write_index_loop_read postings_lists ∅ "" word l).
Qed.

Lemma index_round_trip_witness :
  read_postings_list_from_disk (write_index_to_disk example_postings_lists).1
    (write_index_to_disk example_postings_lists).2 "b"
  = Ret [1; 10]%Z.
Proof.
  apply (index_round_trip example_postings_lists "b" [1; 10]%Z).
  - apply (bool_decide_unpack _). vm_compute. exact I.
  - reflexivity.
  - done.
Defined.

Lemma written_index_get postings_lists word :
  NoDup postings_lists.*1 →
  (∀ l, Dict.get postings_lists word = Some l → l ≠ [] →
        get_query_result (write_index_to_disk postings_lists).1
          (write_index_to_disk postings_lists).2 (Term word)
        = Ret (mkQueryResult l (int_sqrt (length l))))
  ∧ (Dict.get postings_lists word = None →
     get_query_result (write_index_to_disk postings_lists).1
       (write_index_to_disk postings_lists).2 (Term word)
     = Ret (mkQueryResult [] 0)).
Proof.
  intros Hnd. split.
  - intros l Hget%dict_get_Some_elem Hne.
    destruct (write_index_loop_read postings_lists ∅ "" word l Hnd Hget Hne)
      as [(offset & size & Hentry) Hread].
    unfold get_query_result, write_index_to_disk.
    change (String.length "") with 0 in Hentry, Hread.
    by rewrite Hentry, Hread.
  - intros Hget%dict_get_None_keys.
    unfold get_query_result, write_index_to_disk.
    by rewrite write_index_loop_other, lookup_empty by done.
Qed.

(** X2. Against an index written by [write_index_to_disk],
    [get_query_result] resolves a term that has a (non-empty) postings list
    to that list with stride [floor(sqrt(len))], and a term that is not in
    the index to the empty result with stride 0: a missing term is never a
    [KeyError]. *)
Theorem written_index_lookup postings_lists word :
  NoDup postings_lists.*1 →
  match Dict.get postings_lists word with
  | Some l =>
      l ≠ [] →
      get_query_result (write_index_to_disk postings_lists).1
        (write_index_to_disk postings_lists).2 (Term word)
      = Ret (mkQueryResult l (int_sqrt (length l)))
  | None =>
      get_query_result (write_index_to_disk postings_lists).1
        (write_index_to_disk postings_lists).2 (Term word)
      = Ret (mkQueryResult [] 0)
  end.
Proof.
  intros Hnd. destruct (written_index_get postings_lists word Hnd) as [Hsome Hnone].
  destruct (Dict.get postings_lists word) as [l|]; [by apply Hsome | by apply Hnone].
Qed.

Lemma written_index_lookup_witness :
  get_query_result (write_index_to_disk example_postings_lists).1
    (write_index_to_disk example_postings_lists).2 (Term "zebra")
  = Ret (mkQueryResult [] 0).
Proof.
  apply (written_index_lookup example_postings_lists "zebra").
  apply (bool_decide_unpack _). vm_compute. exact I.
Defined.

(** ** What [create_postings_lists] keeps true of its dictionary *)

Lemma dict_set_keys {V} (d : Dict.t V) k v :
  (Dict.set d k v).*1 = if Dict.mem d k then d.*1 else d.*1 ++ [k].
Proof.
  unfold Dict.mem. induction d as [|[k' v'] d IH]; [done|].
  cbn [Dict.set Dict.get]. destruct (String.eqb_spec k' k) as [->|Hne]; [done|].
  rewrite !fmap_cons, IH. by destruct (Dict.get d k).
Qed.

Lemma dict_set_NoDup {V} (d : Dict.t V) k v : NoDup d.*1 → NoDup (Dict.set d k v).*1.
Proof.
  intros Hnd. rewrite dict_set_keys. unfold Dict.mem.
  destruct (Dict.get d k) eqn:Hget; [done|].
  apply NoDup_app. split; [done|]. split; [|apply NoDup_singleton].
  intros x Hx ->%list_elem_of_singleton. by apply dict_get_None_keys in Hget.
Qed.

Lemma add_posting_NoDup docID postings_lists w :
  NoDup postings_lists.*1 → NoDup (add_posting docID postings_lists w).*1.
Proof.
  intros Hnd. unfold add_posting.
  destruct (negb _); destruct (_ || _); auto using dict_set_NoDup.
Qed.

Lemma add_posting_nonempty docID postings_lists w t l :
  (∀ l', Dict.get postings_lists t = Some l' → l' ≠ []) →
  Dict.get (add_posting docID postings_lists w) t = Some l → l ≠ [].
Proof.
  intros Hpl Hget. destruct (decide (t = w)) as [->|Hne].
  - pose proof (add_posting_same docID postings_lists w) as Hsame.
    rewrite Hget in Hsame. cbv zeta in Hsame. simpl in Hsame. subst l.
    destruct (Dict.get postings_lists w) as [old|] eqn:Hold; simpl.
    + destruct (_ || _); [by destruct old | by apply Hpl].
    + done.
  - rewrite add_posting_other in Hget by done. by apply Hpl.
Qed.

Lemma add_postings_wf docID tokens postings_lists :
  NoDup postings_lists.*1 →
  (∀ t l, t ≠ ALL_DOC_IDS → Dict.get postings_lists t = Some l → l ≠ []) →
  NoDup (foldl (add_posting docID) postings_lists tokens).*1
  ∧ ∀ t l, t ≠ ALL_DOC_IDS →
      Dict.get (foldl (add_posting docID) postings_lists tokens) t = Some l → l ≠ [].
Proof.
  revert postings_lists.
  induction tokens as [|w tokens IH]; intros postings_lists Hnd Hne; [done|].
  cbn [foldl]. apply IH; [by apply add_posting_NoDup|].
  intros t l Ht. apply add_posting_nonempty. intros l'. by apply Hne.
Qed.

Lemma index_document_wf sent_tokenize word_tokenize normalize in_dir
    postings_lists docID :
  NoDup postings_lists.*1 →
  (∀ t l, t ≠ ALL_DOC_IDS → Dict.get postings_lists t = Some l → l ≠ []) →
  NoDup (index_document sent_tokenize word_tokenize normalize in_dir
           postings_lists docID).*1
  ∧ ∀ t l, t ≠ ALL_DOC_IDS →
      Dict.get (index_document sent_tokenize word_tokenize normalize in_dir
                  postings_lists docID) t = Some l → l ≠ [].
Proof.
  intros Hnd Hne. unfold index_document.
  rewrite (foldl_foldl_bind (add_posting docID)
             (λ line, line_tokens sent_tokenize word_tokenize normalize
                        (line +:+ newline))).
  apply add_postings_wf; [by apply dict_set_NoDup|].
  intros t l Ht. rewrite dict_get_set_ne by done. by apply Hne.
Qed.

Lemma index_documents_wf sent_tokenize word_tokenize normalize in_dir
    files postings_lists :
  NoDup postings_lists.*1 →
  (∀ t l, t ≠ ALL_DOC_IDS → Dict.get postings_lists t = Some l → l ≠ []) →
  NoDup (foldl (index_document sent_tokenize word_tokenize normalize in_dir)
           postings_lists files).*1
  ∧ ∀ t l, t ≠ ALL_DOC_IDS →
      Dict.get (foldl (index_document sent_tokenize word_tokenize normalize in_dir)
                  postings_lists files) t = Some l → l ≠ [].
Proof.
  revert postings_lists.
  induction files as [|docID files IH]; intros postings_lists Hnd Hne; [done|].
  cbn [foldl].
  destruct (index_document_wf sent_tokenize word_tokenize normalize in_dir
              postings_lists docID Hnd Hne) as [Hnd' Hne'].
  by apply IH.
Qed.

Lemma create_postings_lists_wf sent_tokenize word_tokenize normalize in_dir
    postings_lists :
  create_postings_lists sent_tokenize word_tokenize normalize in_dir
  = Ret postings_lists →
  NoDup postings_lists.*1
  ∧ ∀ t l, t ≠ ALL_DOC_IDS → Dict.get postings_lists t = Some l → l ≠ [].
Proof.
  unfold create_postings_lists.
  destruct (get_sorted_file_names in_dir) as [files| |]; [|done..].
  cbn [mbind res_bind]. intros [= <-].
  apply index_documents_wf.
  - cbn. apply NoDup_singleton.
  - intros t l Ht. cbn [Dict.get].
    by destruct (String.eqb_spec ALL_DOC_IDS t).
Qed.

Lemma add_posting_elem docID postings_lists w term n :
  n ∈ default [] (Dict.get (add_posting docID postings_lists w) term)
  ↔ n ∈ default [] (Dict.get postings_lists term) ∨ (term = w ∧ n = docID).
Proof.
  destruct (decide (term = w)) as [->|Hne].
  - rewrite add_posting_same. cbv zeta.
    assert (n ∈ default [] (Dict.get postings_lists w) ++ [docID]
            ↔ n ∈ default [] (Dict.get postings_lists w) ∨ w = w ∧ n = docID)
      as Happ.
    { rewrite elem_of_app, list_elem_of_singleton.
      split; [intros [?|?]; [by left | by right] | intros [?|[_ ?]]; [by left | by right]]. }
    destruct (length _ =? 0) eqn:Hlen; cbn [orb]; [done|].
    case_bool_decide as Hlast; cbn [negb]; [|done].
    split; [by left|]. intros [?|[_ ->]]; [done|].
    by apply last_Some_elem_of.
  - rewrite add_posting_other by done.
    split; [by left|]. by intros [?|[? _]].
Qed.

Lemma add_postings_elem docID tokens postings_lists term n :
  n ∈ default [] (Dict.get (foldl (add_posting docID) postings_lists tokens) term)
  ↔ n ∈ default [] (Dict.get postings_lists term) ∨ (term ∈ tokens ∧ n = docID).
Proof.
  revert postings_lists.
  induction tokens as [|w tokens IH]; intros postings_lists; cbn [foldl].
  { split; [by left|]. by intros [?|[?%elem_of_nil _]]. }
  rewrite IH, add_posting_elem, elem_of_cons.
  split.
  - intros [[?|[-> ->]]|[? ->]]; [by left | right; split; [by left | done]
                                 | right; split; [by right | done]].
  - intros [?|[[->|?] ->]]; [left; by left | left; by right | by right].
Qed.

Lemma add_postings_sentinel docID tokens postings_lists done :
  Dict.get postings_lists ALL_DOC_IDS = Some (done ++ [docID]) →
  Dict.get (foldl (add_posting docID) postings_lists tokens) ALL_DOC_IDS
  = Some (done ++ [docID]).
Proof.
  revert postings_lists.
  induction tokens as [|w tokens IH]; intros postings_lists Hall; [done|].
  cbn [foldl]. apply IH.
  destruct (decide (w = ALL_DOC_IDS)) as [->|Hw].
  - unfold add_posting, Dict.mem. rewrite !Hall. simpl. rewrite !Hall. simpl.
    rewrite last_snoc, bool_decide_eq_true_2, length_app by done.
    replace (length done + length [docID] =? 0) with false
      by (symmetry; apply Nat.eqb_neq; simpl; lia).
    done.
  - by rewrite add_posting_other.
Qed.

Section IndexMembers.

Variables (sent_tokenize word_tokenize : string → list string)
          (normalize : string → string) (in_dir : gmap string dirent).

Lemma index_document_elem postings_lists docID :
  let postings_lists' :=
    index_document sent_tokenize word_tokenize normalize in_dir postings_lists docID in
  Dict.get postings_lists' ALL_DOC_IDS
  = Some (default [] (Dict.get postings_lists ALL_DOC_IDS) ++ [docID])
  ∧ ∀ term n, term ≠ ALL_DOC_IDS →
      n ∈ default [] (Dict.get postings_lists' term)
      ↔ n ∈ default [] (Dict.get postings_lists term)
        ∨ (n = docID
           ∧ term ∈ tokens_of sent_tokenize word_tokenize normalize in_dir docID).
Proof.
  cbv zeta. unfold index_document.
  rewrite (foldl_foldl_bind (add_posting docID)
             (λ line, line_tokens sent_tokenize word_tokenize normalize
                        (line +:+ newline))).
  split.
  - apply add_postings_sentinel, dict_get_set_eq.
  - intros term n Hterm. rewrite add_postings_elem, dict_get_set_ne by done.
    unfold tokens_of, doc_tokens.
    split; (intros [?|[? ?]]; [by left | by right]).
Qed.

Lemma index_documents_elem files postings_lists done :
  Dict.get postings_lists ALL_DOC_IDS = Some done →
  (∀ term n, term ≠ ALL_DOC_IDS →
     n ∈ default [] (Dict.get postings_lists term)
     ↔ n ∈ done ∧ term ∈ tokens_of sent_tokenize word_tokenize normalize in_dir n) →
  let postings_lists' :=
    foldl (index_document sent_tokenize word_tokenize normalize in_dir)
      postings_lists files in
  Dict.get postings_lists' ALL_DOC_IDS = Some (done ++ files)
  ∧ ∀ term n, term ≠ ALL_DOC_IDS →
      n ∈ default [] (Dict.get postings_lists' term)
      ↔ n ∈ done ++ files
        ∧ term ∈ tokens_of sent_tokenize word_tokenize normalize in_dir n.
Proof.
  cbv zeta. revert postings_lists done.
  induction files as [|docID files IH]; intros postings_lists done Hall Hterms.
  { by rewrite app_nil_r. }
  cbn [foldl].
  rewrite (assoc_L (++) done [docID] files : done ++ docID :: files = _).
  destruct (index_document_elem postings_lists docID) as [Hall' Hterms'].
  rewrite Hall in Hall'. apply IH; [done|].
  intros term n Hterm. rewrite (Hterms' term n Hterm), (Hterms term n Hterm).
  rewrite elem_of_app, list_elem_of_singleton.
  split.
  - intros [[Hn Ht]|[-> Ht]]; (split; [|done]); [by left | by right].
  - intros [[Hn| ->] Ht]; [left | right]; done.
Qed.

End IndexMembers.

(** X3. Whatever the documents hold and however their names are spelt,
    the dictionary that [create_postings_lists] returns has every key once;
    the sentinel holds the sorted document IDs [get_sorted_file_names]
    returned; and a term other than the sentinel is a key exactly when it
    occurs in the file [str(n)] of one of these IDs [n].  The postings list
    of such a key is never empty (a list is created only to receive a
    document ID at once) and holds exactly the IDs whose file contains the
    term. *)
Theorem postings_lists_hold_every_term sent_tokenize word_tokenize normalize
    in_dir postings_lists :
  create_postings_lists sent_tokenize word_tokenize normalize in_dir
  = Ret postings_lists →
  NoDup postings_lists.*1
  ∧ ∃ files,
      get_sorted_file_names in_dir = Ret files
      ∧ Dict.get postings_lists ALL_DOC_IDS = Some files
      ∧ ∀ term, term ≠ ALL_DOC_IDS →
          (is_Some (Dict.get postings_lists term)
           ↔ ∃ n, n ∈ files
                  ∧ term ∈ tokens_of sent_tokenize word_tokenize normalize in_dir n)
          ∧ ∀ l, Dict.get postings_lists term = Some l →
              l ≠ []
              ∧ ∀ n, n ∈ l
                     ↔ n ∈ files
                       ∧ term ∈ tokens_of sent_tokenize word_tokenize normalize
                                  in_dir n.
Proof.
  intros Hcreate.
  destruct (create_postings_lists_wf _ _ _ _ _ Hcreate) as [Hnd Hne].
  split; [done|].
  unfold create_postings_lists in Hcreate.
  destruct (get_sorted_file_names in_dir) as [files| |]; [|done..].
  cbn [mbind res_bind] in Hcreate. injection Hcreate as <-.
  exists files. split; [done|].
  destruct (index_documents_elem sent_tokenize word_tokenize normalize in_dir
              files [(ALL_DOC_IDS, [])] []) as [Hall Hterms].
  { done. }
  { intros term n Hterm. cbn [Dict.get].
    destruct (String.eqb_spec ALL_DOC_IDS term); [done|]. cbn.
    split; [by intros ?%elem_of_nil | by intros [?%elem_of_nil _]]. }
  cbn [app] in Hall, Hterms. split; [done|].
  intros term Hterm. split.
  - split.
    + intros [l Hl]. specialize (Hne term l Hterm Hl).
      destruct l as [|n l]; [done|]. exists n. apply (Hterms term n Hterm).
      rewrite Hl. by left.
    + intros (n & Hn). apply (Hterms term n Hterm) in Hn.
      destruct (Dict.get _ term); [done|]. by apply elem_of_nil in Hn.
  - intros l Hl. split; [by apply (Hne term)|].
    intros n. rewrite <-(Hterms term n Hterm), Hl. done.
Qed.

Lemma postings_lists_hold_every_term_witness :
  NoDup example_postings_lists.*1
  ∧ ∃ files,
      get_sorted_file_names example_dir = Ret files
      ∧ Dict.get example_postings_lists ALL_DOC_IDS = Some files
      ∧ ∀ term, term ≠ ALL_DOC_IDS →
          (is_Some (Dict.get example_postings_lists term)
           ↔ ∃ n, n ∈ files
                  ∧ term ∈ tokens_of one_sentence blank_tokenize id example_dir n)
          ∧ ∀ l, Dict.get example_postings_lists term = Some l →
              l ≠ []
              ∧ ∀ n, n ∈ l
                     ↔ n ∈ files
                       ∧ term ∈ tokens_of one_sentence blank_tokenize id
                                  example_dir n.
Proof.
  apply (postings_lists_hold_every_term one_sentence blank_tokenize id
           example_dir example_postings_lists).
  vm_compute. reflexivity.
Defined.

(** ** File names that are not integers *)

(** [int] on white space: a separator 0x1c is not skipped, U+00A0 is,
    tab and newline are, a blank inside the literal is an error, and so is
    the empty string. *)
Lemma int_white_space :
  Py.int (String (ascii_of_nat 28) "1") = Raise ValueError
  ∧ Py.int (String "1" (String (ascii_of_nat 160) "")) = Ret 1%Z
  ∧ Py.int (String (ascii_of_nat 9) (String "-" (String "7" newline))) = Ret (-7)%Z
  ∧ Py.int "1 2" = Raise ValueError
  ∧ Py.int "" = Raise ValueError.
Proof. repeat split; vm_compute; reflexivity. Qed.

Lemma int_outcome s : (∃ n, Py.int s = Ret n) ∨ Py.int s = Raise ValueError.
Proof.
  unfold Py.int. destruct (Py.int_literal _); [left; by eexists | by right].
Qed.

Lemma map_res_int_outcome names :
  match map_res Py.int names with
  | Ret ids => Forall (λ name, ∃ n, Py.int name = Ret n) names
  | Raise e => e = ValueError ∧ Exists (λ name, Py.int name = Raise ValueError) names
  | OutOfFuel => False
  end.
Proof.
  induction names as [|name names IH]; [by constructor|].
  cbn [map_res]. destruct (int_outcome name) as [[n Hn]|Hn]; rewrite Hn;
    cbn [mbind res_bind].
  - destruct (map_res Py.int names) as [ids|e|]; cbn [mbind res_bind].
    + constructor; [by eexists | done].
    + destruct IH as [-> IH]. split; [done|]. by apply Exists_cons_tl.
    + done.
  - split; [done|]. by apply Exists_cons_hd.
Qed.

(** X4. For a directory whose names are made of code points below 256,
    [create_postings_lists] either returns an index, and then the name of
    every regular file of the directory parses as an integer, or it raises
    [ValueError], and then some regular file has a name that [int]
    rejects; entries that are not regular files never matter.  [int]
    accepts an optional sign and decimal digits, single underscores
    between digits, and white space around the literal (tab to carriage
    return, the blank, U+0085 and U+00A0, not the separators 0x1c-0x1f). *)
Theorem index_build_outcome sent_tokenize word_tokenize normalize in_dir :
  match create_postings_lists sent_tokenize word_tokenize normalize in_dir with
  | Ret _ => Forall (λ name, ∃ n, Py.int name = Ret n) (documents in_dir)
  | Raise e =>
      e = ValueError
      ∧ Exists (λ name, Py.int name = Raise ValueError) (documents in_dir)
  | OutOfFuel => False
  end.
Proof.
  unfold create_postings_lists, get_sorted_file_names. fold (documents in_dir).
  pose proof (map_res_int_outcome (documents in_dir)) as Hnames.
  by destruct (map_res Py.int (documents in_dir)).
Qed.

(** ** More on the three merges *)

Lemma inter_comm l1 l2 :
  strictly_ascending l1 → strictly_ascending l2 → inter l1 l2 = inter l2 l1.
Proof.
  intros H1 H2. rewrite !inter_ref by done. unfold ref_and.
  by rewrite (comm_L (∩)).
Qed.

Lemma linear_or_comm l1 l2 :
  strictly_ascending l1 → strictly_ascending l2 → linear_or l1 l2 = linear_or l2 l1.
Proof.
  intros H1 H2. rewrite !linear_or_ref by done. unfold ref_or.
  by rewrite (comm_L (∪)).
Qed.

(** X5. The merges keep the invariant they rely on: on strictly ascending
    operands the results of [perform_and_query], [perform_or_query] and
    [perform_and_not_query] are strictly ascending again, so results can be
    fed to further merges. *)
Theorem merge_results_ascending dictionary postings_fo l1 s1 l2 s2 :
  strictly_ascending l1 → strictly_ascending l2 →
  ∃ q_and q_or q_and_not,
    perform_and_query dictionary postings_fo
      (Res (mkQueryResult l1 s1)) (Res (mkQueryResult l2 s2)) = Ret q_and
    ∧ perform_or_query dictionary postings_fo
        (Res (mkQueryResult l1 s1)) (Res (mkQueryResult l2 s2)) = Ret q_or
    ∧ perform_and_not_query dictionary postings_fo
        (Res (mkQueryResult l1 s1)) (Res (mkQueryResult l2 s2)) = Ret q_and_not
    ∧ strictly_ascending (doc_Ids q_and)
    ∧ strictly_ascending (doc_Ids q_or)
    ∧ strictly_ascending (doc_Ids q_and_not).
Proof.
  intros H1 H2. unfold perform_and_query, perform_or_query, perform_and_not_query.
  cbn [get_query_result mbind res_bind doc_Ids skip_len].
  rewrite and_merge_inter, or_merge_linear, and_not_merge_diff by done.
  eexists _, _, _. repeat split; cbn [doc_Ids].
  - by apply filter_ascending.
  - by apply linear_or_sorted.
  - by apply filter_ascending.
Qed.

Lemma merge_results_ascending_witness :
  ∃ q_and q_or q_and_not,
    perform_and_query ∅ "" (Res (mkQueryResult [1; 4; 6]%Z 1))
      (Res (mkQueryResult [2; 4; 9]%Z 1)) = Ret q_and
    ∧ perform_or_query ∅ "" (Res (mkQueryResult [1; 4; 6]%Z 1))
        (Res (mkQueryResult [2; 4; 9]%Z 1)) = Ret q_or
    ∧ perform_and_not_query ∅ "" (Res (mkQueryResult [1; 4; 6]%Z 1))
        (Res (mkQueryResult [2; 4; 9]%Z 1)) = Ret q_and_not
    ∧ strictly_ascending (doc_Ids q_and)
    ∧ strictly_ascending (doc_Ids q_or)
    ∧ strictly_ascending (doc_Ids q_and_not).
Proof.
  apply (merge_results_ascending ∅ "" [1; 4; 6]%Z 1 [2; 4; 9]%Z 1);
    unfold strictly_ascending; repeat constructor; lia.
Defined.

(** X6. On strictly ascending operands the whole result of
    [perform_and_query], list and stride, does not depend on the order of
    the operands nor on the strides they carry, and the same holds for
    [perform_or_query]. *)
Theorem and_or_commute dictionary postings_fo l1 s1 s1' l2 s2 s2' :
  strictly_ascending l1 → strictly_ascending l2 →
  perform_and_query dictionary postings_fo
    (Res (mkQueryResult l1 s1)) (Res (mkQueryResult l2 s2))
  = perform_and_query dictionary postings_fo
      (Res (mkQueryResult l2 s2')) (Res (mkQueryResult l1 s1'))
  ∧ perform_or_query dictionary postings_fo
      (Res (mkQueryResult l1 s1)) (Res (mkQueryResult l2 s2))
    = perform_or_query dictionary postings_fo
        (Res (mkQueryResult l2 s2')) (Res (mkQueryResult l1 s1')).
Proof.
  intros H1 H2. unfold perform_and_query, perform_or_query.
  cbn [get_query_result mbind res_bind doc_Ids skip_len].
  rewrite !and_merge_inter, !or_merge_linear by done.
  rewrite (inter_comm l1 l2), (linear_or_comm l1 l2) by done.
  by rewrite (orb_comm (length l1 =? 0)).
Qed.

Lemma and_or_commute_witness :
  perform_and_query ∅ "" (Res (mkQueryResult [1; 4; 6]%Z 1))
    (Res (mkQueryResult [2; 4; 9]%Z 0))
  = perform_and_query ∅ "" (Res (mkQueryResult [2; 4; 9]%Z 3))
      (Res (mkQueryResult [1; 4; 6]%Z 2))
  ∧ perform_or_query ∅ "" (Res (mkQueryResult [1; 4; 6]%Z 1))
      (Res (mkQueryResult [2; 4; 9]%Z 0))
    = perform_or_query ∅ "" (Res (mkQueryResult [2; 4; 9]%Z 3))
        (Res (mkQueryResult [1; 4; 6]%Z 2)).
Proof.
  apply (and_or_commute ∅ "" [1; 4; 6]%Z 1 2 [2; 4; 9]%Z 0 3);
    unfold strictly_ascending; repeat constructor; lia.
Defined.

Lemma length_linear_or_le l1 l2 : length (linear_or l1 l2) ≤ length l1 + length l2.
Proof.
  revert l2. induction l1 as [|a l1 IH]; intros l2.
  { by rewrite linear_or_nil_l. }
  induction l2 as [|b l2 IH2].
  { rewrite linear_or_nil_r. lia. }
  rewrite linear_or_cons.
  destruct (a <? b)%Z; [specialize (IH (b :: l2)); simpl in *; lia|].
  destruct (b <? a)%Z; [simpl in *; lia|].
  specialize (IH l2). simpl in *. lia.
Qed.

Lemma ascending_subset_length l k :
  strictly_ascending l → (∀ x, x ∈ l → x ∈ k) → length l ≤ length k.
Proof.
  intros Hl Hsub. apply submseteq_length, NoDup_submseteq; [|done].
  by apply ascending_NoDup.
Qed.

(** X7. On strictly ascending operands the intersection is no longer than
    the shorter operand, the difference no longer than its first operand,
    and the union at least as long as the longer operand and at most as
    long as both together. *)
Theorem merge_result_lengths dictionary postings_fo l1 s1 l2 s2 :
  strictly_ascending l1 → strictly_ascending l2 →
  ∃ q_and q_or q_and_not,
    perform_and_query dictionary postings_fo
      (Res (mkQueryResult l1 s1)) (Res (mkQueryResult l2 s2)) = Ret q_and
    ∧ perform_or_query dictionary postings_fo
        (Res (mkQueryResult l1 s1)) (Res (mkQueryResult l2 s2)) = Ret q_or
    ∧ perform_and_not_query dictionary postings_fo
        (Res (mkQueryResult l1 s1)) (Res (mkQueryResult l2 s2)) = Ret q_and_not
    ∧ length (doc_Ids q_and) ≤ length l1 `min` length l2
    ∧ length l1 `max` length l2 ≤ length (doc_Ids q_or) ≤ length l1 + length l2
    ∧ length (doc_Ids q_and_not) ≤ length l1.
Proof.
  intros H1 H2. unfold perform_and_query, perform_or_query, perform_and_not_query.
  cbn [get_query_result mbind res_bind doc_Ids skip_len].
  rewrite and_merge_inter, or_merge_linear, and_not_merge_diff by done.
  eexists _, _, _. repeat split; cbn [doc_Ids].
  - apply Nat.min_glb; [apply length_filter|].
    rewrite inter_comm by done. apply length_filter.
  - apply Nat.max_lub; apply ascending_subset_length; try done;
      intros x Hx; apply linear_or_elem; auto.
  - apply length_linear_or_le.
  - apply length_filter.
Qed.

Lemma merge_result_lengths_witness :
  ∃ q_and q_or q_and_not,
    perform_and_query ∅ "" (Res (mkQueryResult [1; 4; 6]%Z 1))
      (Res (mkQueryResult [4; 9]%Z 1)) = Ret q_and
    ∧ perform_or_query ∅ "" (Res (mkQueryResult [1; 4; 6]%Z 1))
        (Res (mkQueryResult [4; 9]%Z 1)) = Ret q_or
    ∧ perform_and_not_query ∅ "" (Res (mkQueryResult [1; 4; 6]%Z 1))
        (Res (mkQueryResult [4; 9]%Z 1)) = Ret q_and_not
    ∧ length (doc_Ids q_and) ≤ 3 `min` 2
    ∧ 3 `max` 2 ≤ length (doc_Ids q_or) ≤ 3 + 2
    ∧ length (doc_Ids q_and_not) ≤ 3.
Proof.
  apply (merge_result_lengths ∅ "" [1; 4; 6]%Z 1 [4; 9]%Z 1);
    unfold strictly_ascending; repeat constructor; lia.
Defined.

(** X8. Empty operands, for arbitrary (not necessarily ascending) lists
    and strides: an intersection with an empty side is empty with stride 0;
    a difference from the empty list is empty, and a difference by the
    empty list is the first operand itself with the stride of its length;
    a union with an empty side is the other operand as it is, with
    stride 0. *)
Theorem merges_on_empty_operands dictionary postings_fo l s s' :
  perform_and_query dictionary postings_fo
    (Res (mkQueryResult l s)) (Res (mkQueryResult [] s')) = Ret (mkQueryResult [] 0)
  ∧ perform_and_query dictionary postings_fo
      (Res (mkQueryResult [] s')) (Res (mkQueryResult l s)) = Ret (mkQueryResult [] 0)
  ∧ perform_and_not_query dictionary postings_fo
      (Res (mkQueryResult [] s')) (Res (mkQueryResult l s)) = Ret (mkQueryResult [] 0)
  ∧ perform_and_not_query dictionary postings_fo
      (Res (mkQueryResult l s)) (Res (mkQueryResult [] s'))
    = Ret (mkQueryResult l (int_sqrt (length l)))
  ∧ perform_or_query dictionary postings_fo
      (Res (mkQueryResult l s)) (Res (mkQueryResult [] s')) = Ret (mkQueryResult l 0)
  ∧ perform_or_query dictionary postings_fo
      (Res (mkQueryResult [] s')) (Res (mkQueryResult l s)) = Ret (mkQueryResult l 0).
Proof.
  unfold perform_and_query, perform_or_query, perform_and_not_query.
  cbn [get_query_result mbind res_bind doc_Ids skip_len].
  repeat split.
  - unfold and_merge, merge_fuel. cbn [and_loop length Nat.ltb Nat.leb].
    by rewrite andb_false_r.
  - unfold and_not_merge, merge_fuel. cbn [and_not_loop length Nat.ltb Nat.leb].
    rewrite andb_false_r. cbn [mbind res_bind]. by destruct l.
  - rewrite or_merge_linear, linear_or_nil_r. cbn [length Nat.eqb].
    by rewrite orb_true_r.
Qed.

(** ** When the parser fails *)

(** X9. [shunting_yard] fails exactly on a [')'] that has no ['('] before
    it: it raises [IndexError] when, reading the tokens from the left, the
    count of [')'] overtakes that of ['('], and it returns a postfix
    sequence otherwise, also when parentheses stay open. *)
Theorem shunting_yard_outcome word_tokenize normalize query :
  match shunting_yard word_tokenize normalize query with
  | Ret _ => is_Some (paren_depth (word_tokenize query) 0)
  | Raise e => e = IndexError ∧ paren_depth (word_tokenize query) 0 = None
  | OutOfFuel => False
  end.
Proof.
  unfold shunting_yard.
  apply (shunting_yard_loop_outcome normalize (word_tokenize query) [] []).
Qed.

(** ** The parser on well-formed queries *)

Lemma pop_while_app p pending operator_stack output_queue :
  Forall (λ t, p t = true) pending →
  match operator_stack with [] => True | top :: _ => p top = false end →
  pop_while p (pending ++ operator_stack) output_queue
  = (operator_stack, output_queue ++ pending).
Proof.
  intros Hp Hstop. revert output_queue.
  induction Hp as [|t pending Ht _ IH]; intros output_queue.
  - rewrite app_nil_r. destruct operator_stack as [|top rest]; [done|].
    cbn [app pop_while]. by rewrite Hstop.
  - cbn [app pop_while]. rewrite Ht, IH. by rewrite <-app_assoc.
Qed.

Lemma infix_unfold n e :
  infix n e
  = let body :=
      match e with
      | Tm w => [w]
      | Not e1 => "NOT"%string :: infix 2 e1
      | And e1 e2 => infix 2 e1 ++ "AND"%string :: infix 1 e2
      | Or e1 e2 => infix 1 e1 ++ "OR"%string :: infix 0 e2
      end in
    if level e <? n then "("%string :: body ++ [")"%string] else body.
Proof. by destruct e. Qed.

Lemma pending_ok_mono n m pending : n ≤ m → pending_ok m pending → pending_ok n pending.
Proof.
  intros Hnm Hpend. unfold pending_ok in *. eapply Forall_impl; [exact Hpend|].
  intros op [?|[[? ?]|[? ?]]]; [by left | right; left; split; [lia|done] |].
  right. right. split; [lia|done].
Qed.

Lemma top_allows_mono n m operator_stack :
  n ≤ m → top_allows n operator_stack → top_allows m operator_stack.
Proof.
  intros Hnm. destruct operator_stack as [|top rest]; [done|].
  intros [H1 H0]. split; intros ?; [apply H1 | apply H0]; lia.
Qed.

Lemma parsed_wrap normalize body e n :
  parsed normalize body e (level e) →
  parsed normalize (if level e <? n then "("%string :: body ++ [")"%string] else body)
    e n.
Proof.
  intros Hbody. destruct (Nat.ltb_spec (level e) n) as [Hlt|Hge].
  - intros rest out ops _.
    destruct (Hbody (")"%string :: rest) out ("("%string :: ops))
      as (emitted & pending & Hrun & Hpost & Hpend).
    { split; by intros _. }
    exists (emitted ++ pending), []. split; [|split; [by rewrite app_nil_r | constructor]].
    cbn [app shunting_yard_loop]. unfold shunting_yard_step at 1.
    cbn [String.eqb Ascii.eqb Bool.eqb mbind res_bind].
    rewrite <-app_assoc. cbn [app]. rewrite Hrun.
    cbn [shunting_yard_loop]. unfold shunting_yard_step at 1.
    cbn [String.eqb Ascii.eqb Bool.eqb].
    rewrite (pop_while_app _ pending ("("%string :: ops)); cbn [Py.pop mbind res_bind].
    + by rewrite app_assoc.
    + eapply Forall_impl; [exact Hpend|]. by intros op [->|[[_ ->]|[_ ->]]].
    + done.
  - intros rest out ops Hops.
    destruct (Hbody rest out ops) as (emitted & pending & Hrun & Hpost & Hpend).
    { by apply (top_allows_mono n). }
    exists emitted, pending. split; [done|]. split; [done|].
    by apply (pending_ok_mono n (level e)).
Qed.

Lemma parsed_term normalize w :
  is_reserved w = false → parsed normalize [w] (Tm w) 3.
Proof.
  intros Hw rest out ops _. exists [normalize w], [].
  split; [|split; [done | constructor]].
  cbn [app shunting_yard_loop]. unfold shunting_yard_step, is_reserved in *.
  destruct (String.eqb w "("); [done|]. destruct (String.eqb w ")"); [done|].
  destruct (String.eqb w "NOT"); [done|]. destruct (String.eqb w "AND"); [done|].
  by destruct (String.eqb w "OR").
Qed.

Lemma parsed_not normalize e1 :
  parsed normalize (infix 2 e1) e1 2 →
  parsed normalize ("NOT"%string :: infix 2 e1) (Not e1) 2.
Proof.
  intros H1 rest out ops _.
  destruct (H1 rest out ("NOT"%string :: ops)) as (emitted & pending & Hrun & Hpost & Hpend).
  { split; intros ?; lia. }
  exists emitted, (pending ++ ["NOT"%string]). split; [|split].
  - cbn [app shunting_yard_loop]. unfold shunting_yard_step at 1.
    cbn [String.eqb Ascii.eqb Bool.eqb mbind res_bind].
    rewrite Hrun. by rewrite <-app_assoc.
  - cbn [postfix]. by rewrite app_assoc, Hpost.
  - apply Forall_app. split; [done|]. constructor; [by left | constructor].
Qed.

Lemma parsed_and normalize e1 e2 :
  parsed normalize (infix 2 e1) e1 2 → parsed normalize (infix 1 e2) e2 1 →
  parsed normalize (infix 2 e1 ++ "AND"%string :: infix 1 e2) (And e1 e2) 1.
Proof.
  intros H1 H2 rest out ops Hops.
  destruct (H1 ("AND"%string :: infix 1 e2 ++ rest) out ops)
    as (emitted1 & pending1 & Hrun1 & Hpost1 & Hpend1).
  { apply (top_allows_mono 1 2); [lia|done]. }
  destruct (H2 rest (out ++ postfix normalize e1) ("AND"%string :: ops))
    as (emitted2 & pending2 & Hrun2 & Hpost2 & Hpend2).
  { split; [done | intros ?; lia]. }
  exists (postfix normalize e1 ++ emitted2), (pending2 ++ ["AND"%string]).
  split; [|split].
  - rewrite <-app_assoc. cbn [app]. rewrite Hrun1.
    cbn [shunting_yard_loop]. unfold shunting_yard_step at 1.
    cbn [String.eqb Ascii.eqb Bool.eqb].
    rewrite (pop_while_app _ pending1 ops); cbn [mbind res_bind].
    + rewrite <-(app_assoc out), Hpost1, Hrun2.
      by rewrite <-!app_assoc.
    + eapply Forall_impl; [exact Hpend1|].
      intros op [->|[[? _]|[? _]]]; [done|lia..].
    + destruct ops as [|top ops]; [done|]. destruct Hops as [Hnot _].
      apply String.eqb_neq. by apply Hnot.
  - cbn [postfix]. rewrite <-app_assoc. f_equal. by rewrite app_assoc, Hpost2.
  - apply Forall_app. split.
    + eapply Forall_impl; [exact Hpend2|]. tauto.
    + constructor; [|constructor]. right. left. by split.
Qed.

Lemma parsed_or normalize e1 e2 :
  parsed normalize (infix 1 e1) e1 1 → parsed normalize (infix 0 e2) e2 0 →
  parsed normalize (infix 1 e1 ++ "OR"%string :: infix 0 e2) (Or e1 e2) 0.
Proof.
  intros H1 H2 rest out ops Hops.
  destruct (H1 ("OR"%string :: infix 0 e2 ++ rest) out ops)
    as (emitted1 & pending1 & Hrun1 & Hpost1 & Hpend1).
  { apply (top_allows_mono 0 1); [lia|done]. }
  destruct (H2 rest (out ++ postfix normalize e1) ("OR"%string :: ops))
    as (emitted2 & pending2 & Hrun2 & Hpost2 & Hpend2).
  { by split. }
  exists (postfix normalize e1 ++ emitted2), (pending2 ++ ["OR"%string]).
  split; [|split].
  - rewrite <-app_assoc. cbn [app]. rewrite Hrun1.
    cbn [shunting_yard_loop]. unfold shunting_yard_step at 1.
    cbn [String.eqb Ascii.eqb Bool.eqb].
    rewrite (pop_while_app _ pending1 ops); cbn [mbind res_bind].
    + rewrite <-(app_assoc out), Hpost1, Hrun2.
      by rewrite <-!app_assoc.
    + eapply Forall_impl; [exact Hpend1|].
      intros op [->|[[_ ->]|[? _]]]; [done|done|lia].
    + destruct ops as [|top ops]; [done|]. destruct Hops as [Hnot Hand].
      apply orb_false_intro; apply String.eqb_neq; [apply Hnot | apply Hand]; lia.
  - cbn [postfix]. rewrite <-app_assoc. f_equal. by rewrite app_assoc, Hpost2.
  - apply Forall_app. split; [done|].
    constructor; [|constructor]. right. right. by split.
Qed.

Lemma parsed_infix normalize e n :
  Forall (λ w, is_reserved w = false) (terms e) →
  parsed normalize (infix n e) e n.
Proof.
  revert n. induction e as [w|e1 IH1|e1 IH1 e2 IH2|e1 IH1 e2 IH2]; intros n Hterms;
    rewrite infix_unfold; cbv zeta; apply parsed_wrap; cbn [level terms] in *.
  - apply parsed_term. by inversion Hterms.
  - apply parsed_not. by apply IH1.
  - apply Forall_app in Hterms as [Ht1 Ht2]. apply parsed_and; auto.
  - apply Forall_app in Hterms as [Ht1 Ht2]. apply parsed_or; auto.
Qed.

(** X10. The parser is correct on well-formed input.  When the tokens of a
    query line are the infix form of a query tree, with [NOT] binding
    tighter than [AND], [AND] tighter than [OR], [AND] and [OR] grouping to
    the right, parentheses where the tree needs them, and no term spelled
    like a reserved word, [shunting_yard] returns the postfix form of that
    tree with the terms normalised. *)
Theorem shunting_yard_correct word_tokenize normalize query e :
  word_tokenize query = infix 0 e →
  Forall (λ w, is_reserved w = false) (terms e) →
  shunting_yard word_tokenize normalize query = Ret (postfix normalize e).
Proof.
  intros Htok Hterms. unfold shunting_yard. rewrite Htok.
  destruct (parsed_infix normalize e 0 Hterms [] [] []) as
    (emitted & pending & Hrun & Hpost & _); [done|].
  rewrite app_nil_r in Hrun. rewrite Hrun. cbn [shunting_yard_loop].
  rewrite pop_while_all. cbn [snd app]. by rewrite app_nil_r, Hpost.
Qed.

Lemma shunting_yard_correct_witness :
  shunting_yard blank_tokenize id "NOT ( a OR b ) AND c OR NOT d"
  = Ret (postfix id (Or (And (Not (Or (Tm "a") (Tm "b"))) (Tm "c")) (Not (Tm "d")))).
Proof.
  apply (shunting_yard_correct blank_tokenize id "NOT ( a OR b ) AND c OR NOT d"
           (Or (And (Not (Or (Tm "a") (Tm "b"))) (Tm "c")) (Not (Tm "d")))).
  - vm_compute. reflexivity.
  - repeat constructor.
Defined.

(** ** The evaluator on well-formed postfix sequences *)

Lemma den_and_not post all_docs e1 e2 :
  den post all_docs (And e1 (Not e2))
  = diff (den post all_docs e1) (den post all_docs e2).
Proof. reflexivity. Qed.

Lemma den_and_other post all_docs e1 e2 :
  (∀ e, e2 ≠ Not e) →
  den post all_docs (And e1 e2)
  = inter (den post all_docs e1) (den post all_docs e2).
Proof. intros Hnot. destruct e2; try done. by specialize (Hnot e2). Qed.

Lemma den_ascending post all_docs e :
  strictly_ascending all_docs →
  Forall (λ w, strictly_ascending (post w)) (terms e) →
  strictly_ascending (den post all_docs e).
Proof.
  intros Hall. induction e as [w|e1 IH1|e1 IH1 e2 IH2|e1 IH1 e2 IH2];
    cbn [terms]; intros Hterms.
  - by inversion Hterms.
  - cbn [den]. by apply filter_ascending.
  - apply Forall_app in Hterms as [Ht1 Ht2].
    destruct e2; cbn [den]; apply filter_ascending; auto.
  - apply Forall_app in Hterms as [Ht1 Ht2]. cbn [den].
    apply linear_or_sorted; auto.
Qed.

Lemma postfix_head normalize e :
  ∃ w tl, postfix normalize e = normalize w :: tl ∧ w ∈ terms e.
Proof.
  induction e as [w|e1 IH1|e1 IH1 e2 IH2|e1 IH1 e2 IH2]; cbn [postfix terms].
  - exists w, []. split; [done | by left].
  - destruct IH1 as (w & tl & -> & Hw). by exists w, (tl ++ ["NOT"%string]).
  - destruct IH1 as (w & tl & -> & Hw). eexists w, _. split; [done|].
    apply elem_of_app. by left.
  - destruct IH1 as (w & tl & -> & Hw). eexists w, _. split; [done|].
    apply elem_of_app. by left.
Qed.

Section Evaluator.

Variables (dictionary : gmap string entry) (postings_fo : string)
          (normalize : string → string) (post : string → list Z)
          (all_docs : list Z) (s_all : nat).
Hypothesis Hall :
  get_query_result dictionary postings_fo (Term ALL_DOC_IDS)
  = Ret (mkQueryResult all_docs s_all).
Hypothesis Hall_sorted : strictly_ascending all_docs.

Lemma eval_term w rest stack query_res :
  term_resolves dictionary postings_fo post w →
  ∃ s, eval_loop dictionary postings_fo (w :: rest) stack query_res
       = eval_loop dictionary postings_fo rest
           (mkQueryResult (post w) s :: stack) (Some (mkQueryResult (post w) s)).
Proof.
  intros (Hop & _ & s & Hget). exists s.
  cbn [eval_loop]. unfold eval_step, is_operator in *.
  destruct (String.eqb w "NOT"); [done|]. destruct (String.eqb w "AND"); [done|].
  destruct (String.eqb w "OR"); [done|].
  rewrite Hget. by cbn.
Qed.

Lemma eval_and l1 s1 l2 s2 rest stack query_res :
  strictly_ascending l1 → strictly_ascending l2 →
  ∃ s, eval_loop dictionary postings_fo ("AND"%string :: rest)
         (mkQueryResult l2 s2 :: mkQueryResult l1 s1 :: stack) query_res
       = eval_loop dictionary postings_fo rest
           (mkQueryResult (inter l1 l2) s :: stack)
           (Some (mkQueryResult (inter l1 l2) s)).
Proof.
  intros H1 H2. eexists. cbn [eval_loop]. unfold eval_step.
  cbn [String.eqb Ascii.eqb Bool.eqb Py.pop mbind res_bind].
  unfold perform_and_query. cbn [get_query_result mbind res_bind doc_Ids skip_len].
  rewrite and_merge_inter by done. by cbn.
Qed.

Lemma eval_or l1 s1 l2 s2 rest stack query_res :
  ∃ s, eval_loop dictionary postings_fo ("OR"%string :: rest)
         (mkQueryResult l2 s2 :: mkQueryResult l1 s1 :: stack) query_res
       = eval_loop dictionary postings_fo rest
           (mkQueryResult (linear_or l1 l2) s :: stack)
           (Some (mkQueryResult (linear_or l1 l2) s)).
Proof.
  eexists. cbn [eval_loop]. unfold eval_step.
  cbn [String.eqb Ascii.eqb Bool.eqb Py.pop mbind res_bind].
  unfold perform_or_query. cbn [get_query_result mbind res_bind doc_Ids skip_len].
  rewrite or_merge_linear. by cbn.
Qed.

Lemma eval_and_not l1 s1 l2 s2 rest stack query_res :
  strictly_ascending l1 → strictly_ascending l2 →
  ∃ s, eval_loop dictionary postings_fo ("NOT"%string :: "AND"%string :: rest)
         (mkQueryResult l2 s2 :: mkQueryResult l1 s1 :: stack) query_res
       = eval_loop dictionary postings_fo rest
           (mkQueryResult (diff l1 l2) s :: stack)
           (Some (mkQueryResult (diff l1 l2) s)).
Proof.
  intros H1 H2. eexists. cbn [eval_loop head]. unfold eval_step.
  cbn [String.eqb Ascii.eqb Bool.eqb].
  rewrite bool_decide_eq_true_2 by done. cbn [Py.pop mbind res_bind].
  unfold perform_and_not_query. cbn [get_query_result mbind res_bind doc_Ids skip_len].
  rewrite and_not_merge_diff by done. by cbn.
Qed.

Lemma eval_not l s rest stack query_res :
  strictly_ascending l →
  head rest ≠ Some "AND"%string → head rest ≠ Some "NOT"%string →
  ∃ s', eval_loop dictionary postings_fo ("NOT"%string :: rest)
          (mkQueryResult l s :: stack) query_res
        = eval_loop dictionary postings_fo rest
            (mkQueryResult (diff all_docs l) s' :: stack)
            (Some (mkQueryResult (diff all_docs l) s')).
Proof.
  intros Hl Hand Hnot. eexists. cbn [eval_loop]. unfold eval_step.
  cbn [String.eqb Ascii.eqb Bool.eqb].
  rewrite !bool_decide_eq_false_2 by done. cbn [Py.pop mbind res_bind].
  unfold perform_not_query. rewrite Hall. cbn [get_query_result mbind res_bind].
  unfold perform_and_not_query. cbn [get_query_result mbind res_bind doc_Ids skip_len].
  rewrite and_not_merge_diff by done. by cbn.
Qed.

Lemma head_postfix_not_operator e rest :
  Forall (λ w, term_resolves dictionary postings_fo post (normalize w)) (terms e) →
  head (postfix normalize e ++ rest) ≠ Some "AND"%string
  ∧ head (postfix normalize e ++ rest) ≠ Some "NOT"%string.
Proof.
  intros Hterms. destruct (postfix_head normalize e) as (w & tl & -> & Hw).
  rewrite Forall_forall in Hterms. destruct (Hterms w Hw) as [Hop _].
  cbn [app head]. split; intros [= Heq]; by rewrite Heq in Hop.
Qed.

Lemma resolved_terms_ascending e :
  Forall (λ w, term_resolves dictionary postings_fo post (normalize w)) (terms e) →
  strictly_ascending (den (λ w, post (normalize w)) all_docs e).
Proof.
  intros Hterms. apply den_ascending; [done|].
  eapply Forall_impl; [exact Hterms|]. by intros w (_ & ? & _).
Qed.

Lemma evaluates_postfix e :
  Forall (λ w, term_resolves dictionary postings_fo post (normalize w)) (terms e) →
  no_double_not e = true →
  evaluates dictionary postings_fo normalize post all_docs e
  ∧ match e with
    | Not e1 => evaluates dictionary postings_fo normalize post all_docs e1
    | _ => True
    end.
Proof.
  induction e as [w|e1 IH1|e1 IH1 e2 IH2|e1 IH1 e2 IH2];
    cbn [terms no_double_not]; intros Hterms Hndn.
  - split; [|done]. intros rest stack qr _. cbn [postfix den app].
    apply eval_term. by inversion Hterms.
  - apply andb_prop in Hndn as [Hshape Hndn].
    destruct (IH1 Hterms Hndn) as [He1 _]. split; [|done].
    intros rest stack qr [Hand Hnot]. cbn [postfix den]. rewrite <-app_assoc.
    destruct (He1 (["NOT"%string] ++ rest) stack qr) as [s1 ->].
    { by destruct e1. }
    apply eval_not; [by apply resolved_terms_ascending|done..].
  - apply andb_prop in Hndn as [Hndn1 Hndn2].
    apply Forall_app in Hterms as [Ht1 Ht2].
    destruct (IH1 Ht1 Hndn1) as [He1 _]. destruct (IH2 Ht2 Hndn2) as [He2 He2'].
    split; [|done]. intros rest stack qr _. cbn [postfix]. rewrite <-!app_assoc.
    destruct (He1 (postfix normalize e2 ++ ["AND"%string] ++ rest) stack qr)
      as [s1 ->].
    { destruct e1; [done| |done..]. by apply head_postfix_not_operator. }
    assert ((∃ e2', e2 = Not e2') ∨ ∀ e, e2 ≠ Not e) as [[e2' ->]|Hother]
      by (destruct e2; eauto).
    + rewrite den_and_not. cbn [postfix terms no_double_not] in *.
      apply andb_prop in Hndn2 as [Hshape Hndn2]. rewrite <-app_assoc.
      destruct (He2' (["NOT"%string] ++ ["AND"%string] ++ rest)
                  (mkQueryResult (den (λ w, post (normalize w)) all_docs e1) s1 :: stack)
                  (Some (mkQueryResult (den (λ w, post (normalize w)) all_docs e1) s1)))
        as [s2 ->].
      { by destruct e2'. }
      apply eval_and_not; by apply resolved_terms_ascending.
    + rewrite den_and_other by done.
      destruct (He2 (["AND"%string] ++ rest)
                  (mkQueryResult (den (λ w, post (normalize w)) all_docs e1) s1 :: stack)
                  (Some (mkQueryResult (den (λ w, post (normalize w)) all_docs e1) s1)))
        as [s2 ->].
      { destruct e2; try done. by specialize (Hother e2). }
      apply eval_and; by apply resolved_terms_ascending.
  - apply andb_prop in Hndn as [Hndn1 Hndn2].
    apply Forall_app in Hterms as [Ht1 Ht2].
    destruct (IH1 Ht1 Hndn1) as [He1 _]. destruct (IH2 Ht2 Hndn2) as [He2 _].
    split; [|done]. intros rest stack qr _. cbn [postfix den]. rewrite <-!app_assoc.
    destruct (He1 (postfix normalize e2 ++ ["OR"%string] ++ rest) stack qr)
      as [s1 ->].
    { destruct e1; [done| |done..]. by apply head_postfix_not_operator. }
    destruct (He2 (["OR"%string] ++ rest)
                (mkQueryResult (den (λ w, post (normalize w)) all_docs e1) s1 :: stack)
                (Some (mkQueryResult (den (λ w, post (normalize w)) all_docs e1) s1)))
      as [s2 ->].
    { by destruct e2. }
    apply eval_or.
Qed.

Lemma perform_search_query_postfix e :
  Forall (λ w, term_resolves dictionary postings_fo post (normalize w)) (terms e) →
  no_double_not e = true →
  perform_search_query dictionary postings_fo (postfix normalize e)
  = Ret (den (λ w, post (normalize w)) all_docs e).
Proof.
  intros Hterms Hndn. destruct (evaluates_postfix e Hterms Hndn) as [He _].
  destruct (He [] [] None) as [s Hrun]; [by destruct e|].
  rewrite app_nil_r in Hrun. unfold perform_search_query. rewrite Hrun. by cbn.
Qed.

End Evaluator.

Lemma den_sem post all_docs e :
  Forall (λ w, ∀ x, x ∈ post w → x ∈ all_docs) (terms e) →
  ∀ x, (x ∈ den post all_docs e
        ↔ x ∈ sem (λ w, list_to_set (post w)) (list_to_set all_docs) e)
       ∧ (x ∈ den post all_docs e → x ∈ all_docs).
Proof.
  induction e as [w|e1 IH1|e1 IH1 e2 IH2|e1 IH1 e2 IH2]; cbn [terms];
    intros Hterms x.
  - cbn [den sem]. rewrite elem_of_list_to_set. split; [done|].
    inversion Hterms; auto.
  - destruct (IH1 Hterms x) as [Hiff Hsub]. cbn [den sem]. unfold diff.
    rewrite list_elem_of_filter, elem_of_difference, elem_of_list_to_set. tauto.
  - apply Forall_app in Hterms as [Ht1 Ht2].
    destruct (IH1 Ht1 x) as [Hiff1 Hsub1]. destruct (IH2 Ht2 x) as [Hiff2 Hsub2].
    cbn [sem]. rewrite elem_of_intersection.
    destruct e2 as [w|e2'|a b|a b].
    + cbn [den sem] in *. unfold inter. rewrite list_elem_of_filter. tauto.
    + rewrite den_and_not. cbn [den sem] in *. unfold diff in *.
      rewrite list_elem_of_filter in *.
      rewrite elem_of_difference, elem_of_list_to_set in *. tauto.
    + rewrite den_and_other by done. unfold inter.
      rewrite list_elem_of_filter. tauto.
    + rewrite den_and_other by done. unfold inter.
      rewrite list_elem_of_filter. tauto.
  - apply Forall_app in Hterms as [Ht1 Ht2].
    destruct (IH1 Ht1 x) as [Hiff1 Hsub1]. destruct (IH2 Ht2 x) as [Hiff2 Hsub2].
    cbn [den sem]. rewrite linear_or_elem, elem_of_union. tauto.
Qed.

Lemma perform_search_query_sem dictionary postings_fo normalize post all_docs
    s_all e :
  get_query_result dictionary postings_fo (Term ALL_DOC_IDS)
  = Ret (mkQueryResult all_docs s_all) →
  strictly_ascending all_docs →
  Forall (λ w, term_resolves dictionary postings_fo post (normalize w)
               ∧ ∀ x, x ∈ post (normalize w) → x ∈ all_docs) (terms e) →
  no_double_not e = true →
  perform_search_query dictionary postings_fo (postfix normalize e)
  = Ret (merge_sort Z.le
           (elements (sem (λ w, list_to_set (post (normalize w)))
                        (list_to_set all_docs) e))).
Proof.
  intros Hall Hsorted Hterms Hndn.
  assert (Forall (λ w, term_resolves dictionary postings_fo post (normalize w))
            (terms e)) as Hres
    by (eapply Forall_impl; [exact Hterms|]; by intros w [? _]).
  assert (Forall (λ w, ∀ x, x ∈ post (normalize w) → x ∈ all_docs) (terms e)) as Hsub
    by (eapply Forall_impl; [exact Hterms|]; by intros w [_ ?]).
  rewrite (perform_search_query_postfix dictionary postings_fo normalize post
             all_docs s_all Hall Hsorted e Hres Hndn).
  f_equal. apply ascending_eq_sorted_set.
  - by apply (resolved_terms_ascending dictionary postings_fo).
  - intros x. apply (den_sem (λ w, post (normalize w)) all_docs e Hsub x).
Qed.

(** X11. The evaluator is correct on well-formed postfix input.  For the
    postfix form of a query tree in which no negation is applied directly
    to a negation, when every term resolves to an ascending list of
    documents drawn from the sentinel's list, [perform_search_query]
    returns the documents the tree denotes as a set expression
    (intersection, union, complement in the sentinel's list), sorted.  The
    fusion of [NOT AND] into one set difference does not change the
    answer. *)
Theorem evaluator_correct dictionary postings_fo normalize post all_docs s_all e :
  get_query_result dictionary postings_fo (Term ALL_DOC_IDS)
  = Ret (mkQueryResult all_docs s_all) →
  strictly_ascending all_docs →
  Forall (λ w, term_resolves dictionary postings_fo post (normalize w)
               ∧ ∀ x, x ∈ post (normalize w) → x ∈ all_docs) (terms e) →
  no_double_not e = true →
  perform_search_query dictionary postings_fo (postfix normalize e)
  = Ret (merge_sort Z.le
           (elements (sem (λ w, list_to_set (post (normalize w)))
                        (list_to_set all_docs) e))).
Proof. apply perform_search_query_sem. Qed.

(** Discharges the conditions on one term of the example collection. *)
Ltac example_term :=
  split;
  [ split; [reflexivity|];
    split; [unfold strictly_ascending; cbv -[Z.lt]; repeat constructor
           | eexists; vm_compute; reflexivity]
  | intros x Hx; vm_compute in Hx; apply list_elem_of_In in Hx;
    apply list_elem_of_In; simpl in *; tauto ].

Lemma evaluator_correct_witness :
  perform_search_query example_dictionary example_postings_file
    (postfix id (Or (And (Tm "a") (Not (Tm "b"))) (Not (Tm "c"))))
  = Ret (merge_sort Z.le
           (elements (sem (λ w, list_to_set (example_post (id w)))
                        (list_to_set [1; 2; 10]%Z)
                        (Or (And (Tm "a") (Not (Tm "b"))) (Not (Tm "c")))))).
Proof.
  apply (evaluator_correct example_dictionary example_postings_file id example_post
           [1; 2; 10]%Z 1 (Or (And (Tm "a") (Not (Tm "b"))) (Not (Tm "c")))).
  - vm_compute. reflexivity.
  - unfold strictly_ascending. repeat constructor; lia.
  - cbn [terms app]. repeat (apply Forall_cons_2; [example_term|]).
    apply Forall_nil_2.
  - reflexivity.
Defined.

Lemma shunting_yard_infix word_tokenize normalize query e :
  word_tokenize query = infix 0 e →
  Forall (λ w, is_reserved w = false) (terms e) →
  shunting_yard word_tokenize normalize query = Ret (postfix normalize e).
Proof.
  intros Htok Hterms. unfold shunting_yard. rewrite Htok.
  destruct (parsed_infix normalize e 0 Hterms [] [] []) as
    (emitted & pending & Hrun & Hpost & _); [done|].
  rewrite app_nil_r in Hrun. rewrite Hrun. cbn [shunting_yard_loop].
  rewrite pop_while_all. cbn [snd app]. by rewrite app_nil_r, Hpost.
Qed.

(** X12. A query line is answered correctly.  When the tokens of the line
    are the infix form of a query tree without a negation directly under a
    negation, no term is spelled like a reserved word, and every normalised
    term resolves to an ascending list of documents drawn from the
    sentinel's list, parsing the line with [shunting_yard] and evaluating
    it with [perform_search_query] gives the sorted list of the documents
    the tree denotes. *)
Theorem query_line_correct word_tokenize normalize dictionary postings_fo post
    all_docs s_all line e :
  word_tokenize (line +:+ newline) = infix 0 e →
  Forall (λ w, is_reserved w = false) (terms e) →
  get_query_result dictionary postings_fo (Term ALL_DOC_IDS)
  = Ret (mkQueryResult all_docs s_all) →
  strictly_ascending all_docs →
  Forall (λ w, term_resolves dictionary postings_fo post (normalize w)
               ∧ ∀ x, x ∈ post (normalize w) → x ∈ all_docs) (terms e) →
  no_double_not e = true →
  line_outcome word_tokenize normalize dictionary postings_fo line
  = Ret (merge_sort Z.le
           (elements (sem (λ w, list_to_set (post (normalize w)))
                        (list_to_set all_docs) e))).
Proof.
  intros Htok Hreserved Hall Hsorted Hterms Hndn. unfold line_outcome.
  rewrite (shunting_yard_infix word_tokenize normalize _ e Htok Hreserved).
  cbn [mbind res_bind].
  by apply (perform_search_query_sem dictionary postings_fo normalize post
              all_docs s_all).
Qed.

Lemma query_line_correct_witness :
  line_outcome blank_tokenize id example_dictionary example_postings_file
    "( a OR b ) AND NOT c"
  = Ret (merge_sort Z.le
           (elements (sem (λ w, list_to_set (example_post (id w)))
                        (list_to_set [1; 2; 10]%Z)
                        (And (Or (Tm "a") (Tm "b")) (Not (Tm "c")))))).
Proof.
  apply (query_line_correct blank_tokenize id example_dictionary
           example_postings_file example_post [1; 2; 10]%Z 1
           "( a OR b ) AND NOT c" (And (Or (Tm "a") (Tm "b")) (Not (Tm "c")))).
  - vm_compute. reflexivity.
  - repeat constructor.
  - vm_compute. reflexivity.
  - unfold strictly_ascending. repeat constructor; lia.
  - cbn [terms app]. repeat (apply Forall_cons_2; [example_term|]).
    apply Forall_nil_2.
  - reflexivity.
Defined.

(** ** A batch of queries that all succeed *)

Lemma run_search_loop_all_ok word_tokenize normalize dictionary postings_fo
    lines results written :
  Forall2 (λ line r, line_outcome word_tokenize normalize dictionary postings_fo line
                     = Ret r) lines results →
  run_search_loop word_tokenize normalize dictionary postings_fo lines written
  = (written ++ (result_line <$> results), Ret ()).
Proof.
  intros Hall. revert written.
  induction Hall as [|line r lines results Hr _ IH]; intros written.
  { cbn. by rewrite app_nil_r. }
  unfold line_outcome in Hr. cbn [run_search_loop]. rewrite Hr.
  rewrite IH. by rewrite <-app_assoc.
Qed.

(** X13. When every line of the queries file evaluates without an
    exception, [run_search] runs to the end and writes exactly one line per
    query, in the order of the queries: the document IDs of the result in
    decimal, separated by single blanks and ended by a newline (a lone
    newline for an empty result). *)
Theorem run_search_writes_results word_tokenize normalize dictionary postings_fo
    lines results :
  Forall2 (λ line r, line_outcome word_tokenize normalize dictionary postings_fo line
                     = Ret r) lines results →
  run_search word_tokenize normalize dictionary postings_fo lines
  = (result_line <$> results, Ret ())
  ∧ result_line [] = newline.
Proof.
  intros Hall. split; [|done]. unfold run_search.
  by rewrite (run_search_loop_all_ok _ _ _ _ _ results).
Qed.

Lemma run_search_writes_results_witness :
  run_search blank_tokenize id example_dictionary example_postings_file
    ["a AND b"; "NOT a"; "zebra"]
  = (result_line <$> [[1]; [10]; []]%Z, Ret ())
  ∧ result_line [] = newline.
Proof.
  apply (run_search_writes_results blank_tokenize id example_dictionary
           example_postings_file ["a AND b"; "NOT a"; "zebra"] [[1]; [10]; []]%Z).
  repeat constructor; vm_compute; reflexivity.
Defined.

(** ** Negation and the sentinel *)

(** X14. [perform_not_query] is the sentinel's list minus the operand:
    when the sentinel resolves to an ascending list of all documents, the
    result for an ascending operand is the sorted set difference; when the
    dictionary has no sentinel entry, the sentinel resolves to the empty
    result and the negation of anything is empty. *)
Theorem not_query_is_complement dictionary postings_fo l s :
  strictly_ascending l →
  match dictionary !! ALL_DOC_IDS with
  | None =>
      perform_not_query dictionary postings_fo (Res (mkQueryResult l s))
      = Ret (mkQueryResult [] 0)
  | Some _ =>
      ∀ all_docs s_all,
        get_query_result dictionary postings_fo (Term ALL_DOC_IDS)
        = Ret (mkQueryResult all_docs s_all) →
        strictly_ascending all_docs →
        doc_Ids <$> perform_not_query dictionary postings_fo (Res (mkQueryResult l s))
        = Ret (ref_and_not all_docs l)
  end.
Proof.
  intros Hl. destruct (dictionary !! ALL_DOC_IDS) as [e|] eqn:Hentry.
  - intros all_docs s_all Hall Hsorted. unfold perform_not_query. rewrite Hall.
    cbn [get_query_result mbind res_bind]. unfold perform_and_not_query.
    cbn [get_query_result mbind res_bind doc_Ids skip_len].
    rewrite and_not_merge_diff by done. cbn [fmap res_fmap doc_Ids].
    by rewrite diff_ref.
  - assert (get_query_result dictionary postings_fo (Term ALL_DOC_IDS)
            = Ret (mkQueryResult [] 0)) as Hall
      by (unfold get_query_result, entry in *; by rewrite Hentry).
    unfold perform_not_query. by rewrite Hall.
Qed.

Lemma not_query_is_complement_witness :
  doc_Ids <$> perform_not_query example_dictionary example_postings_file
                (Res (mkQueryResult [2; 10]%Z 1))
  = Ret (ref_and_not [1; 2; 10]%Z [2; 10]%Z).
Proof.
  refine (not_query_is_complement example_dictionary example_postings_file
            [2; 10]%Z 1 _ [1; 2; 10]%Z 1 _ _).
  - unfold strictly_ascending. repeat constructor; lia.
  - vm_compute. reflexivity.
  - unfold strictly_ascending. repeat constructor; lia.
Defined.

(** ** Indexing, then searching *)

Lemma create_postings_lists_state sent_tokenize word_tokenize normalize in_dir :
  Forall (λ name, Py.str <$> Py.int name = Ret name) (documents in_dir) →
  ∃ postings_lists files,
    create_postings_lists sent_tokenize word_tokenize normalize in_dir
    = Ret postings_lists
    ∧ index_state (tokens_of sent_tokenize word_tokenize normalize in_dir)
        postings_lists files
    ∧ strictly_ascending files
    ∧ ∀ n, n ∈ files ↔ Py.str n ∈ documents in_dir.
Proof.
  intros Hcanon.
  destruct (map_res_int_canonical (documents in_dir)) as (ids & Hids & Hnames).
  { intros name Hname. rewrite Forall_forall in Hcanon.
    specialize (Hcanon name Hname).
    destruct (Py.int name) as [n| |]; [|done..]. exists n. by simplify_eq/=. }
  pose proof (merge_sort_Permutation Z.le ids) as Hperm.
  assert (strictly_ascending (merge_sort Z.le ids)) as Hsorted.
  { apply sorted_le_NoDup_ascending; [apply (Sorted_merge_sort Z.le)|].
    rewrite Hperm. apply (NoDup_fmap_1 Py.str). rewrite <-Hnames.
    apply NoDup_filter, NoDup_fst_map_to_list. }
  exists (foldl (index_document sent_tokenize word_tokenize normalize in_dir)
            [(ALL_DOC_IDS, [])] (merge_sort Z.le ids)), (merge_sort Z.le ids).
  split; [|split; [|split; [done|]]].
  - unfold create_postings_lists, get_sorted_file_names.
    fold (documents in_dir). by rewrite Hids.
  - apply (index_documents_state sent_tokenize word_tokenize normalize in_dir
             (merge_sort Z.le ids) [(ALL_DOC_IDS, [])] [] Hsorted).
    split; [done|]. intros term Hterm. cbn [Dict.get].
    by destruct (String.eqb_spec ALL_DOC_IDS term).
  - intros n. rewrite Hperm, Hnames, list_elem_of_fmap. split; [by eauto|].
    by intros (m & ->%str_inj & ?).
Qed.

Lemma sem_holds post universe has_term is_doc e :
  Forall (λ w, ∀ n, n ∈ post w ↔ has_term w n) (terms e) →
  (∀ n, n ∈ universe ↔ is_doc n) →
  ∀ n, n ∈ sem post universe e ↔ holds has_term is_doc e n.
Proof.
  intros Hterms Huniv.
  induction e as [w|e1 IH1|e1 IH1 e2 IH2|e1 IH1 e2 IH2]; cbn [terms] in Hterms;
    intros n; cbn [sem holds].
  - by inversion Hterms.
  - rewrite elem_of_difference, Huniv, (IH1 Hterms). done.
  - apply Forall_app in Hterms as [Ht1 Ht2].
    by rewrite elem_of_intersection, (IH1 Ht1), (IH2 Ht2).
  - apply Forall_app in Hterms as [Ht1 Ht2].
    by rewrite elem_of_union, (IH1 Ht1), (IH2 Ht2).
Qed.

(** X15. Indexing and searching compose.  For a directory with at least
    one document whose file names are canonical integers, and a query tree
    without a negation directly under a negation whose normalised terms are
    neither operators nor the sentinel key, [build_index] succeeds and
    [perform_search_query], run against the files it wrote on the postfix
    form of the query, returns in strictly ascending order exactly the IDs
    of the documents that satisfy the query: a term holds of the documents
    whose tokens include it, [NOT] of the other documents of the
    directory. *)
Theorem search_after_build sent_tokenize word_tokenize normalize in_dir e :
  Forall (λ name, Py.str <$> Py.int name = Ret name) (documents in_dir) →
  documents in_dir ≠ [] →
  Forall (λ w, is_operator (normalize w) = false ∧ normalize w ≠ ALL_DOC_IDS)
    (terms e) →
  no_double_not e = true →
  ∃ dictionary postings_fo l,
    build_index sent_tokenize word_tokenize normalize in_dir
    = Ret (dictionary, postings_fo)
    ∧ perform_search_query dictionary postings_fo (postfix normalize e) = Ret l
    ∧ strictly_ascending l
    ∧ ∀ n, n ∈ l ↔
           holds (λ w n, Py.str n ∈ docs_containing sent_tokenize word_tokenize
                                      normalize (normalize w) in_dir)
             (λ n, Py.str n ∈ documents in_dir) e n.
Proof.
  intros Hcanon Hdocs Hterms Hndn.
  destruct (create_postings_lists_state sent_tokenize word_tokenize normalize
              in_dir Hcanon) as (pl & files & Hcreate & [Hall Hlists] & Hsorted & Hmem).
  destruct (create_postings_lists_wf _ _ _ _ _ Hcreate) as [Hnd Hne].
  assert (files ≠ []) as Hfiles.
  { destruct (documents in_dir) as [|name names] eqn:Hd; [done|].
    apply Forall_cons in Hcanon as [Hname _].
    destruct (Py.int name) as [n| |]; [|done..].
    assert (n ∈ files) as Hn by (apply Hmem; simplify_eq/=; by left).
    intros ->. by apply elem_of_nil in Hn. }
  set (post := λ t : string,
         filter (λ n, t ∈ tokens_of sent_tokenize word_tokenize normalize in_dir n)
           files).
  assert (get_query_result (write_index_to_disk pl).1 (write_index_to_disk pl).2
            (Term ALL_DOC_IDS)
          = Ret (mkQueryResult files (int_sqrt (length files)))) as Hsentinel.
  { by apply (written_index_get pl ALL_DOC_IDS Hnd). }
  assert (Forall (λ w, term_resolves (write_index_to_disk pl).1
                         (write_index_to_disk pl).2 post (normalize w)
                       ∧ ∀ x, x ∈ post (normalize w) → x ∈ files) (terms e)) as Hres.
  { eapply Forall_impl; [exact Hterms|]. intros w [Hop Hkey].
    split; [|by intros x [_ ?]%list_elem_of_filter].
    split; [done|]. split; [by apply filter_ascending|].
    specialize (Hlists (normalize w) Hkey).
    destruct (written_index_get pl (normalize w) Hnd) as [Hsome Hnone].
    destruct (Dict.get pl (normalize w)) as [l|] eqn:Hget.
    - cbn in Hlists. subst l. eexists. apply Hsome; [done|].
      by apply (Hne (normalize w)).
    - cbn in Hlists. unfold post. rewrite <-Hlists. eexists. by apply Hnone. }
  exists (write_index_to_disk pl).1, (write_index_to_disk pl).2,
    (den (λ w, post (normalize w)) files e).
  split; [|split; [|split]].
  - unfold build_index. rewrite Hcreate. cbn [mbind res_bind].
    by destruct (write_index_to_disk pl).
  - apply (perform_search_query_postfix _ _ normalize post files _ Hsentinel Hsorted);
      [|done]. eapply Forall_impl; [exact Hres|]. by intros w [? _].
  - apply (resolved_terms_ascending (write_index_to_disk pl).1
             (write_index_to_disk pl).2); [done|].
    eapply Forall_impl; [exact Hres|]. by intros w [? _].
  - intros n.
    assert (Forall (λ w, ∀ x, x ∈ post (normalize w) → x ∈ files) (terms e)) as Hsub
      by (eapply Forall_impl; [exact Hres|]; by intros w [_ ?]).
    rewrite (proj1 (den_sem (λ w, post (normalize w)) files e Hsub n)).
    apply sem_holds.
    + apply Forall_forall. intros w _ m. unfold post, docs_containing, tokens_of.
      by rewrite elem_of_list_to_set, !list_elem_of_filter, Hmem.
    + intros m. by rewrite elem_of_list_to_set, Hmem.
Qed.

Lemma search_after_build_witness :
  ∃ dictionary postings_fo l,
    build_index one_sentence blank_tokenize id example_dir
    = Ret (dictionary, postings_fo)
    ∧ perform_search_query dictionary postings_fo
        (postfix id (Or (And (Tm "a") (Not (Tm "b"))) (Not (Tm "c")))) = Ret l
    ∧ strictly_ascending l
    ∧ ∀ n, n ∈ l ↔
           holds (λ w n, Py.str n ∈ docs_containing one_sentence blank_tokenize
                                      id (id w) example_dir)
             (λ n, Py.str n ∈ documents example_dir)
             (Or (And (Tm "a") (Not (Tm "b"))) (Not (Tm "c"))) n.
Proof.
  apply (search_after_build one_sentence blank_tokenize id example_dir
           (Or (And (Tm "a") (Not (Tm "b"))) (Not (Tm "c")))).
  - example_names.
  - vm_compute. done.
  - repeat constructor; vm_compute; done.
  - reflexivity.
Defined.

(** ** What a skip may pass over *)

(** X16. A pointer advance of the merges (the [has_skip] test, the
    repeated skip and the single-step fallback) on a strictly ascending
    list, started at an element below the bound, moves the pointer forward
    by at least one position, never beyond the end of the list, and passes
    only over elements that are below the bound: a skip cannot jump over a
    possible match. *)
Theorem advance_passes_only_smaller fuel l skip bound j y :
  strictly_ascending l → l !! j = Some y → (y < bound)%Z → length l - j < fuel →
  ∃ j', advance fuel l skip bound j = Ret j'
        ∧ j < j' ≤ length l
        ∧ ∀ k x, j ≤ k < j' → l !! k = Some x → (x < bound)%Z.
Proof.
  intros Hl Hj Hy Hfuel.
  destruct (advance_spec fuel l skip bound j y Hj Hfuel) as (j' & Hrun & Hrange & Hland).
  exists j'. split; [done|]. split; [done|].
  apply (skipped_lt l j j' y bound); [done..|lia|done].
Qed.

Lemma advance_passes_only_smaller_witness :
  ∃ j', advance 7 [1; 3; 5; 7; 9; 11]%Z 2 8%Z 0 = Ret j'
        ∧ 0 < j' ≤ length [1; 3; 5; 7; 9; 11]%Z
        ∧ ∀ k x, 0 ≤ k < j' → [1; 3; 5; 7; 9; 11]%Z !! k = Some x → (x < 8)%Z.
Proof.
  apply (advance_passes_only_smaller 7 [1; 3; 5; 7; 9; 11]%Z 2 8%Z 0 1%Z).
  - unfold strictly_ascending. repeat constructor; lia.
  - reflexivity.
  - lia.
  - simpl. lia.
Defined.
